(** * Page-layout search of [cutting.py]: grid model, backtracking solver,
      correlation filter and emitter, with their specification.

    The Python module works on numpy integer arrays whose cells are [1]
    (empty) or [-1] (full).  The embedding follows the module function by
    function:

    - a two-dimensional array is the list of its rows, a slice is clamped
      to the array as numpy clamps it;
    - the fields id, cols, rows, gap and area of a variant are natural
      numbers;
    - a call that can raise lives in the [result] monad: IndexError for
      [rows[0]] on an empty index array, ValueError for
      [scipy.signal.correlate], TypeError for a call whose arguments do not
      fit the parameters of the function called;
    - a generator is the function that performs one [next()] on its state.

    The first part is the program, the second the predicates and inputs the
    statements use, the third the properties. *)

From Stdlib Require Import List Arith ZArith Lia Bool Permutation.
From Equations Require Import Equations.
From Equations.Prop Require Import Logic.
Import ListNotations.

Set Implicit Arguments.

(* ===================================================================== *)
(** ** Exceptions *)
(* ===================================================================== *)

Inductive exn : Type :=
| TypeError    (* a call whose arguments do not match the parameters *)
| ValueError   (* raised by scipy.signal.correlate *)
| IndexError.  (* rows[0] on an empty index array *)

Inductive result (A : Type) : Type :=
| Ok (a : A)
| Raise (e : exn).

Arguments Ok {A} a.
Arguments Raise {A} e.

Definition bind {A B} (m : result A) (k : A -> result B) : result B :=
  match m with
  | Ok a => k a
  | Raise e => Raise e
  end.

Notation "x <- m ;; k" := (bind m (fun x => k))
  (at level 61, m at next level, right associativity).
Notation "' pat <- m ;; k" := (bind m (fun x => match x with pat => k end))
  (at level 61, pat pattern, m at next level, right associativity).

(** Case analysis on the value [y] that [inspect t] pairs with its equation,
    in a goal [_ = rhs] whose right-hand side inspects [t] itself. *)
Ltac inspect_as t y Hy :=
  destruct (inspect t) as [y Hy];
  match goal with
  | |- _ = ?rhs =>
      match eval pattern t in rhs with
      | ?F _ => transitivity (F y); [cbv beta | rewrite Hy; reflexivity]
      end
  end.

(* ===================================================================== *)
(** ** GridModel: numpy arrays of 1 / -1 *)
(* ===================================================================== *)

Definition matrix := list (list Z).

(** [np.ones((rows, columns), dtype=int)] *)
Definition create_matrix (rows columns : nat) : matrix :=
  repeat (repeat 1%Z columns) rows.

(** Cell [(i, j)] of an array, when it exists. *)
Definition cell (m : matrix) (i j : nat) : option Z :=
  match nth_error m i with
  | Some r => nth_error r j
  | None => None
  end.

(** First column of a row holding [v], scanning from column [j]. *)
Fixpoint first_in_row (v : Z) (r : list Z) (j : nat) : option nat :=
  match r with
  | [] => None
  | x :: t => if (x =? v)%Z then Some j else first_in_row v t (S j)
  end.

(** First element of [np.where(m == v)]: numpy lists the matching cells in
    row-major order. *)
Fixpoint first_where (v : Z) (m : matrix) (i : nat) : option (nat * nat) :=
  match m with
  | [] => None
  | r :: t =>
      match first_in_row v r 0 with
      | Some j => Some (i, j)
      | None => first_where v t (S i)
      end
  end.

(** [rows, columns = np.where(matrix == 1); return int(rows[0]), int(columns[0])]:
    indexing the empty index array raises IndexError. *)
Definition find_empty_cel (m : matrix) : result (nat * nat) :=
  match first_where 1 m 0 with
  | Some p => Ok p
  | None => Raise IndexError
  end.

(** [m[row:row + rows, col:col + cols]]: a basic slice, clamped to the array. *)
Definition slice (row rows col cols : nat) (m : matrix) : matrix :=
  map (fun r => firstn cols (skipn col r)) (firstn rows (skipn row m)).

(** [np.count_nonzero(m == v)] *)
Definition count_eq (v : Z) (m : matrix) : nat :=
  list_sum (map (fun r => length (filter (fun x => (x =? v)%Z) r)) m).

Definition validate_step (row col rows cols : nat) (m : matrix) : bool :=
  let free_cels := count_eq 1 (slice row rows col cols m) in
  if negb (free_cels =? rows * cols) then false else true.

Fixpoint mapi_from {A} (f : nat -> A -> A) (i : nat) (l : list A) : list A :=
  match l with
  | [] => []
  | x :: t => f i x :: mapi_from f (S i) t
  end.

Definition within (lo len i : nat) : bool := (lo <=? i) && (i <? lo + len).

(** [m[row:row + rows, col:col + cols] = v]: every cell of the array that
    the slice reaches is overwritten; cells the slice names beyond the edge
    do not exist and nothing is raised. *)
Definition assign_slice (row rows col cols : nat) (v : Z) (m : matrix) : matrix :=
  mapi_from
    (fun i r =>
       if within row rows i
       then mapi_from (fun j x => if within col cols j then v else x) 0 r
       else r)
    0 m.

(* ===================================================================== *)
(** ** Article variants, combinations, search states *)
(* ===================================================================== *)

(** One variant of an article: the dict with keys id, cols, rows, gap, area. *)
Record dim : Type := mkDim {
  id : nat;
  cols : nat;
  rows : nat;
  gap : nat;
  area : nat
}.

(** The dict built by [add_area]. *)
Record layout : Type := mkLayout {
  layout_area : nat;
  dimensions : list dim
}.

(** One entry of a state's 'coords' list. *)
Record coord : Type := mkCoord {
  coord_id : nat;
  coord_col : nat;
  coord_row : nat;
  coord_cols : nat
}.

(** One search state: the dict with keys ids, coords, page. *)
Record state : Type := mkState {
  ids : list nat;
  coords : list coord;
  page : matrix
}.

(* ===================================================================== *)
(** ** BacktrackingSolver *)
(* ===================================================================== *)

(** The body of [make_step]'s loop for one [dim]: the deep copy of the
    parent with the variant committed at [(row, column)]. *)
Definition place (parent : state) (d : dim) (row column : nat) : state :=
  {| ids := ids parent ++ [id d];
     coords := coords parent ++
               [{| coord_id := id d; coord_col := column;
                   coord_row := row; coord_cols := cols d |}];
     page := assign_slice row (rows d + gap d) column (cols d) (-1) (page parent) |}.

Fixpoint make_step (parent : state) (dimensions : list dim) : result (list state) :=
  match dimensions with
  | [] => Ok []
  | d :: rest =>
      '(row, column) <- find_empty_cel (page parent) ;;
      ret <- make_step parent rest ;;
      if validate_step row column (rows d + gap d) (cols d) (page parent)
      then Ok (place parent d row column :: ret)
      else Ok ret
  end.

(** [dim['id'] not in variant['ids']] *)
Definition not_in (i : nat) (l : list nat) : bool := negb (existsb (Nat.eqb i) l).

Definition unplaced (dimensions : list dim) (variant : state) : list dim :=
  filter (fun d => not_in (id d) (ids variant)) dimensions.

(** The search root built for one variant: committed at row 0, column 0 on
    a copy of the empty page, with no test of any kind. *)
Definition root (page0 : matrix) (d : dim) : state :=
  {| ids := [id d];
     coords := [{| coord_id := id d; coord_col := 0;
                   coord_row := 0; coord_cols := cols d |}];
     page := assign_slice 0 (rows d + gap d) 0 (cols d) (-1) page0 |}.

(** [list.pop()]: removes and returns the last item. *)
Definition pop {A} (l : list A) : option (A * list A) :=
  match rev l with
  | [] => None
  | x :: r => Some (x, rev r)
  end.

Definition is_empty {A} (l : list A) : bool :=
  match l with [] => true | _ => false end.

(** One pass through the body of [while ret:].  [None]: the loop condition
    is false.  Otherwise the new values of [ret] and [solutions], or the
    exception that leaves the function. *)
Definition iteration (dims_all : list dim) (ret solutions : list state)
  : option (result (list state * list state)) :=
  match pop ret with
  | None => None
  | Some (variant, ret') =>
      let dims := unplaced dims_all variant in
      let solutions' := if is_empty dims then solutions ++ [variant] else solutions in
      Some (steps <- make_step variant dims ;; Ok (steps ++ ret', solutions'))
  end.

(** Termination measure of the loop: a pending state with [k] articles
    still unplaced weighs [(n + 1) ^ k], [n] the size of the combination. *)
Definition weight (dims_all : list dim) (s : state) : nat :=
  S (length dims_all) ^ length (unplaced dims_all s).

Definition pending_weight (dims_all : list dim) (ret : list state) : nat :=
  list_sum (map (weight dims_all) ret).

(** *** Termination of the search loop *)

Lemma filter_length_lt {A} (f g : A -> bool) (l : list A) (a : A) :
  (forall x, f x = true -> g x = true) ->
  In a l -> g a = true -> f a = false ->
  length (filter f l) < length (filter g l).
Proof.
  intros Hfg. induction l as [|x l IH]; simpl; [tauto|].
  assert (Hle : length (filter f l) <= length (filter g l)).
  { clear IH. induction l as [|y l IHl]; simpl; [lia|].
    destruct (f y) eqn:Ef; [rewrite (Hfg _ Ef); simpl; lia|].
    destruct (g y); simpl; lia. }
  intros [->|Hin] Hg Hf.
  - rewrite Hg, Hf. simpl. lia.
  - specialize (IH Hin Hg Hf).
    destruct (f x) eqn:Ef; [rewrite (Hfg _ Ef); simpl; lia|].
    destruct (g x); simpl; lia.
Qed.

Lemma not_in_app i l1 l2 :
  not_in i (l1 ++ l2) = not_in i l1 && not_in i l2.
Proof. unfold not_in. rewrite existsb_app, negb_orb. reflexivity. Qed.

Lemma unplaced_shrinks dims_all parent d s :
  In d (unplaced dims_all parent) ->
  ids s = ids parent ++ [id d] ->
  length (unplaced dims_all s) < length (unplaced dims_all parent).
Proof.
  unfold unplaced. intros Hin Hs. apply filter_In in Hin as [Hin Hd].
  apply filter_length_lt with (a := d); auto.
  - intros x. rewrite Hs, not_in_app. intros H.
    apply andb_prop in H. tauto.
  - rewrite Hs, not_in_app. unfold not_in at 2. simpl.
    rewrite Nat.eqb_refl. simpl. apply andb_false_r.
Qed.

Lemma make_step_shape parent dims steps :
  make_step parent dims = Ok steps ->
  length steps <= length dims /\
  Forall (fun s => exists d row column,
            In d dims /\
            find_empty_cel (page parent) = Ok (row, column) /\
            validate_step row column (rows d + gap d) (cols d) (page parent) = true /\
            s = place parent d row column) steps.
Proof.
  revert steps. induction dims as [|d dims IH]; simpl; intros steps H.
  - inversion H. split; [simpl; lia | constructor].
  - destruct (find_empty_cel (page parent)) as [[row column]|e] eqn:Ecel;
      simpl in H; [|discriminate].
    destruct (make_step parent dims) as [ret|e]; simpl in H; [|discriminate].
    destruct (IH ret eq_refl) as [Hlen Hall].
    assert (Hall' : Forall (fun s => exists d0 row0 column0,
              In d0 (d :: dims) /\
              Ok (row, column) = Ok (row0, column0) /\
              validate_step row0 column0 (rows d0 + gap d0) (cols d0) (page parent) = true /\
              s = place parent d0 row0 column0) ret).
    { eapply Forall_impl; [|exact Hall]. intros s (d0 & r0 & c0 & ? & ? & ? & ?).
      exists d0, r0, c0. simpl. tauto. }
    destruct (validate_step _ _ _ _ _) eqn:Ev; inversion H; subst; simpl.
    + split; [lia|]. constructor; [|exact Hall'].
      exists d, row, column. simpl. tauto.
    + split; [lia | exact Hall'].
Qed.

Lemma pop_spec {A} (l : list A) :
  match pop l with
  | None => l = []
  | Some (x, r) => l = r ++ [x]
  end.
Proof.
  unfold pop. destruct (rev l) as [|x r] eqn:E.
  - apply (f_equal (@rev A)) in E. rewrite rev_involutive in E. exact E.
  - apply (f_equal (@rev A)) in E. rewrite rev_involutive in E. exact E.
Qed.

Lemma pending_weight_app dims_all l1 l2 :
  pending_weight dims_all (l1 ++ l2) =
  pending_weight dims_all l1 + pending_weight dims_all l2.
Proof. unfold pending_weight. rewrite map_app, list_sum_app. reflexivity. Qed.

Lemma steps_weight dims_all k steps :
  Forall (fun s => length (unplaced dims_all s) <= k) steps ->
  pending_weight dims_all steps <= length steps * S (length dims_all) ^ k.
Proof.
  induction 1 as [|s l Hs _ IH]; [unfold pending_weight; simpl; lia|].
  change (pending_weight dims_all (s :: l))
    with (weight dims_all s + pending_weight dims_all l).
  assert (weight dims_all s <= S (length dims_all) ^ k).
  { unfold weight. apply Nat.pow_le_mono_r; lia. }
  simpl length. lia.
Qed.

Lemma iteration_decreases dims_all ret solutions ret' solutions' :
  iteration dims_all ret solutions = Some (Ok (ret', solutions')) ->
  pending_weight dims_all ret' < pending_weight dims_all ret.
Proof.
  unfold iteration. pose proof (pop_spec ret) as Hpop.
  destruct (pop ret) as [[variant rest]|]; [|discriminate]. subst ret.
  destruct (make_step variant (unplaced dims_all variant)) as [steps|e] eqn:E;
    simpl; [|discriminate].
  intros H. inversion H; subst; clear H.
  apply make_step_shape in E as [Hlen Hall].
  rewrite !pending_weight_app.
  assert (Hw : pending_weight dims_all [variant] = weight dims_all variant).
  { unfold pending_weight. simpl. lia. }
  rewrite Hw. unfold weight at 1.
  set (n := length dims_all) in *.
  assert (Hk : length (unplaced dims_all variant) <= n).
  { unfold unplaced, n. apply filter_length_le. }
  destruct (length (unplaced dims_all variant)) as [|k] eqn:Ek.
  - assert (steps = []) by (destruct steps; simpl in *; [reflexivity|lia]).
    subst steps. simpl. unfold pending_weight. simpl. lia.
  - assert (Hb : pending_weight dims_all steps <= length steps * S n ^ k).
    { apply steps_weight. eapply Forall_impl; [|exact Hall].
      intros s (d & row & column & Hd & _ & _ & Hs).
      assert (Hi : ids s = ids variant ++ [id d]) by (subst s; reflexivity).
      pose proof (@unplaced_shrinks _ _ _ _ Hd Hi). lia. }
    assert (length steps * S n ^ k <= n * S n ^ k) by (apply Nat.mul_le_mono_r; lia).
    assert (0 < S n ^ k) by (apply Nat.neq_0_lt_0, Nat.pow_nonzero; lia).
    rewrite Nat.pow_succ_r'. lia.
Qed.

(** The [while ret:] loop of [find_solution]. *)
Equations? find_loop (dims_all : list dim) (ret solutions : list state)
  : result (list state) by wf (pending_weight dims_all ret) lt :=
  find_loop dims_all ret solutions with inspect (iteration dims_all ret solutions) => {
    | exist _ None _ := Ok solutions ;
    | exist _ (Some (Raise e)) _ := Raise e ;
    | exist _ (Some (Ok (ret', solutions'))) H :=
        find_loop dims_all ret' solutions' }.
Proof. eapply iteration_decreases; eassumption. Qed.

(** The parameter [rows] is rebound inside the first loop, after the empty
    page has been created from it. *)
Definition find_solution (l : layout) (rows columns : nat) : result (list state) :=
  let page0 := create_matrix rows columns in
  find_loop (dimensions l) (map (root page0) (dimensions l)) [].

(* ===================================================================== *)
(** ** VariantGenerator *)
(* ===================================================================== *)

Definition validate_area (dimensions : list dim) (columns rows : nat) : bool :=
  let area := list_sum (map area dimensions) in
  let page_area := columns * rows in
  if area <=? page_area then true else false.

Definition add_area (dimensions : list dim) : layout :=
  let area := list_sum (map area dimensions) in
  {| layout_area := area; dimensions := dimensions |}.

(** [itertools.product] over the articles: one variant per article, the rightmost
    article advancing fastest; the product of no article is one empty tuple. *)
Fixpoint product {A} (pools : list (list A)) : list (list A) :=
  match pools with
  | [] => [[]]
  | pool :: rest => flat_map (fun x => map (cons x) (product rest)) pool
  end.

(** [sorted(l, key=key)]: ascending and stable. *)
Fixpoint insert_by {A} (key : A -> nat) (x : A) (l : list A) : list A :=
  match l with
  | [] => [x]
  | y :: t => if key y <? key x then y :: insert_by key x t else x :: y :: t
  end.

Definition sorted {A} (key : A -> nat) (l : list A) : list A :=
  fold_right (insert_by key) [] l.

(** [filter(f, l)] for a predicate that may raise; [sorted] consumes the
    whole iterator, so the first exception is the one that surfaces. *)
Fixpoint filter_py {A} (f : A -> result bool) (l : list A) : result (list A) :=
  match l with
  | [] => Ok []
  | x :: t =>
      keep <- f x ;;
      t' <- filter_py f t ;;
      Ok (if keep then x :: t' else t')
  end.

(** [validate_area] the way [filter] calls it: with the item as its only
    argument.  The function declares three parameters without defaults, so
    binding the arguments raises TypeError and its body never runs. *)
Definition validate_area_item (item : list dim) : result bool :=
  Raise TypeError.

(** [generate_layouts] has the catalog as its only parameter: no page size
    reaches it. *)
Definition generate_layouts (articles : list (list dim)) : result (list layout) :=
  layouts_all <- filter_py validate_area_item (product articles) ;;
  let layouts := map add_area layouts_all in
  Ok (rev (sorted layout_area layouts)).

(* ===================================================================== *)
(** ** FastFeasibilityFilter *)
(* ===================================================================== *)

(** [a.shape] of a two-dimensional array. *)
Definition shape (m : matrix) : nat * nat := (length m, length (hd [] m)).

Definition get (m : matrix) (i j : nat) : Z := nth j (nth i m []) 0%Z.

Definition zsum (l : list Z) : Z := fold_right Z.add 0%Z l.

(** The array of shape [(r, c)] whose cell [(i, j)] is [f i j]. *)
Definition table (r c : nat) (f : nat -> nat -> Z) : matrix :=
  map (fun i => map (fun j => f i j) (seq 0 c)) (seq 0 r).

(** The terms [f a b] for [a < r] and [b < c], and their sum. *)
Definition window (r c : nat) (f : nat -> nat -> Z) : list Z :=
  flat_map (fun a => map (fun b => f a b) (seq 0 c)) (seq 0 r).

Definition window_sum (r c : nat) (f : nat -> nat -> Z) : Z :=
  zsum (window r c f).

(** [scipy.signal.correlate(in1, in2, 'valid')] on two-dimensional integer
    arrays (scipy 1.x).  When [in1] is at least as large as [in2] along both
    axes the output has one cell per position of [in2] inside [in1].  When
    [in2] is at least as large as [in1] along both axes scipy exchanges the
    roles of the two arrays.  When neither contains the other it raises
    ValueError; so it does on an array without cells. *)
Definition correlate_valid (in1 in2 : matrix) : result matrix :=
  let '(r1, c1) := shape in1 in
  let '(r2, c2) := shape in2 in
  if (r1 =? 0) || (c1 =? 0) || (r2 =? 0) || (c2 =? 0) then Raise ValueError
  else if (r2 <=? r1) && (c2 <=? c1) then
    Ok (table (r1 - r2 + 1) (c1 - c2 + 1)
          (fun i j => window_sum r2 c2
                        (fun a b => (get in1 (i + a) (j + b) * get in2 a b)%Z)))
  else if (r1 <=? r2) && (c1 <=? c2) then
    Ok (table (r2 - r1 + 1) (c2 - c1 + 1)
          (fun i j => window_sum r1 c1
                        (fun a b => (get in1 a b *
                                     get in2 (a + (r2 - r1) - i) (b + (c2 - c1) - j))%Z)))
  else Raise ValueError.

(** The [for dim in dimensions:] loop of [fast_verify] on the scratch page. *)
Fixpoint fast_verify_loop (dimensions : list dim) (page : matrix) : result bool :=
  match dimensions with
  | [] => Ok true
  | d :: rest =>
      let article_area := create_matrix (rows d + gap d) (cols d) in
      let max_peak := fst (shape article_area) * snd (shape article_area) in
      c <- correlate_valid page article_area ;;
      match first_where (Z.of_nat max_peak) c 0 with
      | None => Ok false
      | Some (row, column) =>
          fast_verify_loop rest
            (assign_slice row (rows d + gap d) column (cols d) (-1) page)
      end
  end.

Definition fast_verify (l : layout) (page_rows page_columns : nat) : result bool :=
  let page := create_matrix page_rows page_columns in
  let dims := dimensions l in
  let dimensions := rev (sorted area dims) in
  fast_verify_loop dimensions page.

(* ===================================================================== *)
(** ** Orchestration *)
(* ===================================================================== *)

(** The first [next()] on [generate_tile_orders(articles, rows, columns)] as
    the module has it: the body runs from its first line.  It calls
    [generate_layouts], then [generator_fast_verify], which declares one
    parameter, with the three arguments [layouts, rows, columns]: binding
    them raises TypeError before a generator exists.  The [for] loop under
    that call, with its counter and its call [find_solution(layout, False)],
    has nothing to iterate over and is never entered. *)
Definition generate_tile_orders (articles : list (list dim)) (rows columns : nat)
  : result (option (list state)) :=
  layouts <- generate_layouts articles ;;
  Raise TypeError.

(* ===================================================================== *)
(** * Vocabulary of the specification and the inputs of the scenarios *)
(* ===================================================================== *)

(** ** Arrays *)

(** The array has [r] rows of [c] cells. *)
Definition is_grid (r c : nat) (m : matrix) : Prop :=
  length m = r /\ Forall (fun row => length row = c) m.

(** Every cell of the [h] x [w] rectangle anchored at [(row, col)] exists
    in the array and is empty. *)
Definition rect_free (row col h w : nat) (m : matrix) : Prop :=
  forall i j, row <= i < row + h -> col <= j < col + w -> cell m i j = Some 1%Z.

(** No cell of the array exceeds 1 (the cells of a page are 1 or -1). *)
Definition cells_le1 (m : matrix) : Prop :=
  Forall (Forall (fun x => (x <= 1)%Z)) m.

(** The page whose first [filled] rows are full and whose other rows are
    empty. *)
Definition stacked (r c filled : nat) : matrix :=
  repeat (repeat (-1)%Z c) filled ++ repeat (repeat 1%Z c) (r - filled).

(** ** Search states *)

(** What holds of the placed-id list of every state the search builds. *)
Definition ids_ok (dims_all : list dim) (s : state) : Prop :=
  NoDup (ids s) /\ incl (ids s) (map id dims_all).

(** A placement: the recorded coordinates with the variant committed there.
    It covers the cells of the (rows + gap) x cols rectangle anchored at the
    recorded row and column. *)
Definition covers (p : coord * dim) (i j : nat) : Prop :=
  coord_row (fst p) <= i < coord_row (fst p) + (rows (snd p) + gap (snd p)) /\
  coord_col (fst p) <= j < coord_col (fst p) + cols (snd p).

(** No cell is covered by both placements. *)
Definition disjoint (p q : coord * dim) : Prop :=
  forall i j, ~ (covers p i j /\ covers q i j).

(** The record [c] is the one written when committing the variant [d]. *)
Definition records (dims_all : list dim) (c : coord) (d : dim) : Prop :=
  In d dims_all /\ coord_id c = id d /\ coord_cols c = cols d.

(** [placed] lists, in the order of placement, the variants committed in
    [s]: they carry the placed ids, each matches its record, their
    rectangles are pairwise disjoint, and the full cells of the page of [s]
    are exactly the cells of these rectangles. *)
Definition tiling (dims_all : list dim) (s : state) (placed : list dim) : Prop :=
  map id placed = ids s /\
  Forall2 (records dims_all) (coords s) placed /\
  ForallOrdPairs disjoint (combine (coords s) placed) /\
  (forall p, In p (combine (coords s) placed) ->
             forall i j, covers p i j -> cell (page s) i j = Some (-1)%Z) /\
  (forall i j, cell (page s) i j = Some (-1)%Z ->
               exists p, In p (combine (coords s) placed) /\ covers p i j).

(** The reading of the traversal as depth-first, for one pending list: when
    the popped state has successors, the state popped next is one of them. *)
Definition explores_successors_first (dims_all : list dim) (ret : list state) : Prop :=
  forall variant rest steps,
    pop ret = Some (variant, rest) ->
    make_step variant (unplaced dims_all variant) = Ok steps ->
    steps <> [] ->
    exists next rest', pop (steps ++ rest) = Some (next, rest') /\ In next steps.

(** The states taken from the pending list by the next [k] passes through
    the loop, in the order they are taken, with the pending list the passes
    leave; [None] when the loop ends or raises before. *)
Fixpoint taken (dims_all : list dim) (k : nat) (ret solutions : list state)
  : option (list state * list state) :=
  match k with
  | 0 => Some ([], ret)
  | S k' =>
      match pop ret, iteration dims_all ret solutions with
      | Some (variant, _), Some (Ok (ret', solutions')) =>
          match taken dims_all k' ret' solutions' with
          | Some (popped, pending) => Some (variant :: popped, pending)
          | None => None
          end
      | _, _ => None
      end
  end.

(** Rows needed to stack the variants, gaps included. *)
Definition total_height (dims : list dim) : nat :=
  list_sum (map (fun d => rows d + gap d) dims).

(** The page of the state is filled from the top, and what is left of it
    can take every variant still unplaced. *)
Definition laid (dims_all : list dim) (r c : nat) (s : state) : Prop :=
  exists filled,
    page s = stacked r c filled /\
    filled + total_height (unplaced dims_all s) <= r.

(** ** The filter *)

(** The footprint of a variant, in cells. *)
Definition footprint (d : dim) : nat := (rows d + gap d) * cols d.

(** The footprint is taller but narrower than the page, or wider but
    shorter: neither array contains the other. *)
Definition straddles (h w r c : nat) : Prop :=
  (r < h /\ w < c) \/ (h < r /\ c < w).

(** ** Inputs of the scenarios *)

(** Scenario C: articles A and B, one variant each of one cell. *)
Definition article_A : dim := mkDim 1 1 1 0 1.
Definition article_B : dim := mkDim 2 1 1 0 1.
Definition scenario_C : layout := add_area [article_A; article_B].

(** B at column 0, A at column 1. *)
Definition solution_BA : state :=
  {| ids := [2; 1];
     coords := [ {| coord_id := 2; coord_col := 0; coord_row := 0; coord_cols := 1 |};
                 {| coord_id := 1; coord_col := 1; coord_row := 0; coord_cols := 1 |} ];
     page := [[(-1)%Z; (-1)%Z]] |}.

(** A at column 0, B at column 1. *)
Definition solution_AB : state :=
  {| ids := [1; 2];
     coords := [ {| coord_id := 1; coord_col := 0; coord_row := 0; coord_cols := 1 |};
                 {| coord_id := 2; coord_col := 1; coord_row := 0; coord_cols := 1 |} ];
     page := [[(-1)%Z; (-1)%Z]] |}.

(** Scenario C with a third article of one cell, for a page of 1 row and 3
    columns. *)
Definition article_C : dim := mkDim 3 1 1 0 1.
Definition three_cells : layout := add_area [article_A; article_B; article_C].

(** Two articles of 2 columns and 1 row, for a page of 2 rows and 3 columns;
    and two of 3 columns and 1 row, as wide as that page. *)
Definition narrow_1 : dim := mkDim 1 2 1 0 2.
Definition narrow_2 : dim := mkDim 2 2 1 0 2.
Definition two_narrow : layout := add_area [narrow_1; narrow_2].

Definition wide_1 : dim := mkDim 1 3 1 0 3.
Definition wide_2 : dim := mkDim 2 3 1 0 3.

(** Two variants of 2 x 2 cells and one of 3 rows and 1 column, for a page
    of 2 rows and 2 columns. *)
Definition square_1 : dim := mkDim 1 2 2 0 4.
Definition square_2 : dim := mkDim 2 2 2 0 4.
Definition tall_3 : dim := mkDim 3 1 3 0 3.
Definition two_squares_and_tall : layout := add_area [square_1; square_2; tall_3].

(** ** Further predicates on pages and states *)

(** A pending state that cannot be expanded: articles are left to place
    and its page has no empty cell. *)
Definition stuck (dims_all : list dim) (s : state) : Prop :=
  unplaced dims_all s <> [] /\ forall i j, cell (page s) i j <> Some 1%Z.

(** The coordinate records of a state follow its id list; the first one is
    at row 0, column 0 and the later ones are anchored on cells of the
    page; each carries the width of a variant of its article; the page
    keeps its shape. *)
Definition recorded (dims_all : list dim) (r c : nat) (s : state) : Prop :=
  map coord_id (coords s) = ids s /\
  (exists c0 later, coords s = c0 :: later /\
                    coord_row c0 = 0 /\ coord_col c0 = 0 /\
                    Forall (fun x => coord_row x < r /\ coord_col x < c) later) /\
  Forall (fun x => exists d, In d dims_all /\ coord_id x = id d /\
                             coord_cols x = cols d) (coords s) /\
  is_grid r c (page s).

(** The empty cells of the page and the footprints of the variants committed
    add up to the page. *)
Definition accounted (dims_all : list dim) (r c : nat) (s : state) : Prop :=
  exists placed,
    map id placed = ids s /\ incl placed dims_all /\
    count_eq 1 (page s) + list_sum (map footprint placed) = r * c.

(** Where the filter puts a variant: the anchor, written as a coordinate
    record of the variant. *)
Definition anchored (page : matrix) (x : coord) (d : dim) : Prop :=
  coord_id x = id d /\ coord_cols x = cols d /\
  rect_free (coord_row x) (coord_col x) (rows d + gap d) (cols d) page.

(* ===================================================================== *)
(** * Properties *)
(* ===================================================================== *)

(** ** Arrays *)

Lemma mapi_from_length {A} (f : nat -> A -> A) i l :
  length (mapi_from f i l) = length l.
Proof. revert i. induction l; simpl; intros; [reflexivity | now rewrite IHl]. Qed.

Lemma mapi_from_nth_error {A} (f : nat -> A -> A) i l k :
  nth_error (mapi_from f i l) k = option_map (f (i + k)) (nth_error l k).
Proof.
  revert i k. induction l as [|x l IH]; intros i [|k]; simpl; try reflexivity.
  - now rewrite Nat.add_0_r.
  - rewrite IH. now rewrite Nat.add_succ_r.
Qed.

Lemma create_matrix_grid r c : is_grid r c (create_matrix r c).
Proof.
  unfold is_grid, create_matrix. split; [apply repeat_length|].
  apply Forall_forall. intros x Hx. apply repeat_spec in Hx. subst.
  apply repeat_length.
Qed.

Lemma assign_slice_grid r c row h col w v m :
  is_grid r c m -> is_grid r c (assign_slice row h col w v m).
Proof.
  unfold is_grid, assign_slice. intros [Hl Hr]. split.
  - now rewrite mapi_from_length.
  - apply Forall_forall. intros x Hx.
    apply In_nth_error in Hx as [k Hk]. rewrite mapi_from_nth_error in Hk.
    destruct (nth_error m k) as [r0|] eqn:E; [|discriminate]. simpl in Hk.
    apply nth_error_In in E. rewrite Forall_forall in Hr. specialize (Hr _ E).
    inversion Hk. destruct (within row h k); [rewrite mapi_from_length|]; exact Hr.
Qed.

Lemma within_true lo len i : within lo len i = true <-> lo <= i < lo + len.
Proof.
  unfold within. rewrite andb_true_iff, Nat.leb_le, Nat.ltb_lt. reflexivity.
Qed.

Lemma cell_assign_slice row h col w v m i j :
  cell (assign_slice row h col w v m) i j =
  option_map (fun x => if within row h i && within col w j then v else x)
             (cell m i j).
Proof.
  unfold cell, assign_slice. rewrite mapi_from_nth_error. simpl.
  destruct (nth_error m i) as [r|]; simpl; [|reflexivity].
  destruct (within row h i); simpl.
  - rewrite mapi_from_nth_error. reflexivity.
  - destruct (nth_error r j); reflexivity.
Qed.

Lemma cell_create_matrix r c i j :
  i < r -> j < c -> cell (create_matrix r c) i j = Some 1%Z.
Proof.
  intros Hi Hj. unfold cell, create_matrix.
  rewrite nth_error_repeat by exact Hi. now apply nth_error_repeat.
Qed.

Lemma cell_create_matrix_inv r c i j x :
  cell (create_matrix r c) i j = Some x -> x = 1%Z.
Proof.
  unfold cell, create_matrix. intros H.
  destruct (nth_error (repeat (repeat 1%Z c) r) i) as [row|] eqn:E; [|discriminate].
  apply nth_error_In, repeat_spec in E. subst row.
  apply nth_error_In, repeat_spec in H. exact H.
Qed.

(** ** The search loop, one iteration at a time *)

Lemma find_loop_step dims_all ret solutions :
  find_loop dims_all ret solutions =
  match iteration dims_all ret solutions with
  | None => Ok solutions
  | Some (Raise e) => Raise e
  | Some (Ok (ret', solutions')) => find_loop dims_all ret' solutions'
  end.
Proof.
  rewrite find_loop_equation_1.
  inspect_as (iteration dims_all ret solutions) y Hy.
  destruct y as [[[ret' sols']|e]|]; reflexivity.
Qed.

(** Invariant rule for the loop: what every iteration preserves holds of the
    solutions the loop returns. *)
Lemma find_loop_invariant dims_all (P : list state -> list state -> Prop) :
  (forall ret sols ret' sols',
      P ret sols ->
      iteration dims_all ret sols = Some (Ok (ret', sols')) -> P ret' sols') ->
  forall ret sols out,
    P ret sols -> find_loop dims_all ret sols = Ok out ->
    exists ret', P ret' out /\ iteration dims_all ret' out = None.
Proof.
  intros Hstep ret.
  remember (pending_weight dims_all ret) as n eqn:Hn. revert ret Hn.
  induction n as [n IH] using lt_wf_ind.
  intros ret Hn sols out HP Hrun. rewrite find_loop_step in Hrun.
  destruct (iteration dims_all ret sols) as [[[ret' sols']|e]|] eqn:E.
  - apply (IH (pending_weight dims_all ret')) with (ret := ret') (sols := sols'); auto.
    + subst n. eapply iteration_decreases; eassumption.
    + eapply Hstep; eassumption.
  - discriminate.
  - inversion Hrun; subst. exists ret. auto.
Qed.

Lemma iteration_inv dims_all ret sols ret' sols' :
  iteration dims_all ret sols = Some (Ok (ret', sols')) ->
  exists variant rest steps,
    ret = rest ++ [variant] /\
    make_step variant (unplaced dims_all variant) = Ok steps /\
    ret' = steps ++ rest /\
    sols' = (if is_empty (unplaced dims_all variant)
             then sols ++ [variant] else sols).
Proof.
  unfold iteration. pose proof (pop_spec ret) as Hpop.
  destruct (pop ret) as [[variant rest]|]; [|discriminate].
  destruct (make_step variant (unplaced dims_all variant)) as [steps|e] eqn:E;
    simpl; [|discriminate].
  intros H. inversion H; subst. exists variant, rest, steps. auto.
Qed.

Lemma pop_snoc {A} (l : list A) (x : A) : pop (l ++ [x]) = Some (x, l).
Proof. unfold pop. rewrite rev_app_distr. simpl. rewrite rev_involutive. reflexivity. Qed.

(** ** Scenario C and the single-article combination *)

(** C7: on a page of 1 row and 2 columns, for articles A (id 1) and B (id 2)
    with one variant each of 1 column, 1 row and gap 0, [find_solution]
    returns exactly two Solutions: B at column 0 with A at column 1, and A at
    column 0 with B at column 1. *)
Theorem scenario_C_two_solutions :
  find_solution scenario_C 1 2 = Ok [ solution_BA; solution_AB ].
Proof. vm_compute. reflexivity. Qed.

(** C9: for a combination of one article whose footprint is taller or wider
    than the page, [find_solution] returns one Solution, with the article at
    row 0, column 0; the page of the Solution is the empty page with the
    slice assigned, and keeps the shape of the page. *)
Theorem single_oversized_article_is_placed (l : layout) (d : dim) (page_rows page_columns : nat) :
  dimensions l = [d] ->
  page_rows < rows d + gap d \/ page_columns < cols d ->
  exists s,
    find_solution l page_rows page_columns = Ok [s] /\
    ids s = [id d] /\
    coords s = [ {| coord_id := id d; coord_col := 0;
                    coord_row := 0; coord_cols := cols d |} ] /\
    page s = assign_slice 0 (rows d + gap d) 0 (cols d) (-1)
               (create_matrix page_rows page_columns) /\
    is_grid page_rows page_columns (page s).
Proof.
  intros Hl _. exists (root (create_matrix page_rows page_columns) d).
  unfold find_solution. rewrite Hl. simpl map.
  split; [|split; [reflexivity|split; [reflexivity|split; [reflexivity|]]]].
  - rewrite find_loop_step. unfold iteration, pop, unplaced, not_in. simpl.
    rewrite Nat.eqb_refl. simpl.
    rewrite find_loop_step. reflexivity.
  - apply assign_slice_grid, create_matrix_grid.
Qed.

(** A variant of 3 columns and 3 rows, gap included, on a page of 2 x 2. *)
Lemma single_oversized_article_is_placed_witness :
  exists s,
    find_solution (add_area [mkDim 7 3 2 1 9]) 2 2 = Ok [s] /\
    ids s = [7] /\
    coords s = [ mkCoord 7 0 0 3 ] /\
    page s = [[(-1)%Z; (-1)%Z]; [(-1)%Z; (-1)%Z]] /\
    is_grid 2 2 (page s).
Proof.
  apply (@single_oversized_article_is_placed
           (add_area [mkDim 7 3 2 1 9]) (mkDim 7 3 2 1 9) 2 2).
  - reflexivity.
  - simpl. lia.
Defined.

(** ** Order of the traversal *)

(** C4, as stated, fails on Scenario C: the pending list starts as the two
    roots; popping the root of B yields one successor, and the state popped
    next is the root of A, which is no successor. *)
Lemma roots_of_scenario_C_not_depth_first :
  ~ explores_successors_first (dimensions scenario_C)
      (map (root (create_matrix 1 2)) (dimensions scenario_C)).
Proof.
  intros H.
  destruct (H (root (create_matrix 1 2) article_B)
              [root (create_matrix 1 2) article_A]
              [place (root (create_matrix 1 2) article_B) article_A 0 1])
    as (next & rest' & Hpop & Hin); try reflexivity; try discriminate.
  vm_compute in Hpop. inversion Hpop; subst.
  destruct Hin as [Hin|[]]. discriminate Hin.
Qed.

Lemma firstn_app_le {A} (n : nat) (l1 l2 : list A) :
  n <= length l1 -> firstn n (l1 ++ l2) = firstn n l1.
Proof.
  intros H. rewrite firstn_app. replace (n - length l1) with 0 by lia.
  simpl. apply app_nil_r.
Qed.

(** The next passes through the loop take the states at the back of the
    pending list, last one first; what they produce is put in front, and
    the front of the list is not touched. *)
Lemma taken_from_the_back dims_all (k : nat) :
  forall front back solutions popped pending,
    k <= length back ->
    taken dims_all k (front ++ back) solutions = Some (popped, pending) ->
    popped = firstn k (rev back) /\
    exists newer, pending = newer ++ front ++ firstn (length back - k) back.
Proof.
  induction k as [|k IH]; intros front back solutions popped pending Hk Hrun.
  - simpl in Hrun. inversion Hrun; subst. split; [reflexivity|].
    exists []. rewrite Nat.sub_0_r, firstn_all. reflexivity.
  - destruct (exists_last (l := back)) as (back' & x & ->).
    { intros ->. simpl in Hk. lia. }
    rewrite length_app in Hk. simpl in Hk.
    cbn [taken] in Hrun. rewrite app_assoc, pop_snoc in Hrun.
    destruct (iteration dims_all ((front ++ back') ++ [x]) solutions)
      as [[[ret' solutions']|e]|] eqn:Eit; try discriminate.
    apply iteration_inv in Eit as (variant & rest & steps & Hret & _ & -> & _).
    apply app_inj_tail in Hret as [<- <-].
    destruct (taken dims_all k (steps ++ front ++ back') solutions')
      as [[popped' pending']|] eqn:Erun; [|discriminate].
    inversion Hrun; subst; clear Hrun.
    rewrite app_assoc in Erun.
    apply IH in Erun as [-> (newer & ->)]; [|lia].
    split.
    + rewrite rev_app_distr. reflexivity.
    + exists (newer ++ steps). rewrite length_app. simpl.
      replace (length back' + 1 - S k) with (length back' - k) by lia.
      rewrite firstn_app_le by lia. rewrite <- !app_assoc. reflexivity.
Qed.

(** C4, amended: a pass through the loop that takes [variant] and leaves
    [rest] pending puts the successors in front of [rest].  When [rest] is
    not empty the state taken next is its last one, and the passes that
    follow take the states of [rest] from the last one backwards; as long
    as some are left the successors stay in the list untaken, behind what
    these passes produce.  The next state taken is one of the successors
    just produced (the last one) only when [rest] is empty. *)
Theorem pending_states_are_taken_before_new_successors
  (dims_all : list dim) (ret solutions ret' solutions' : list state)
  (variant : state) (rest : list state) :
  pop ret = Some (variant, rest) ->
  iteration dims_all ret solutions = Some (Ok (ret', solutions')) ->
  exists steps,
    make_step variant (unplaced dims_all variant) = Ok steps /\
    ret' = steps ++ rest /\
    (forall next rest0,
        pop rest = Some (next, rest0) -> pop ret' = Some (next, steps ++ rest0)) /\
    (forall k popped pending,
        k <= length rest ->
        taken dims_all k ret' solutions' = Some (popped, pending) ->
        popped = firstn k (rev rest) /\
        exists newer, pending = newer ++ steps ++ firstn (length rest - k) rest) /\
    (rest = [] -> pop ret' = pop steps).
Proof.
  intros Hpop Hit. unfold iteration in Hit. rewrite Hpop in Hit.
  destruct (make_step variant (unplaced dims_all variant)) as [steps|e];
    simpl in Hit; [|discriminate].
  inversion Hit; subst. exists steps.
  split; [reflexivity|]. split; [reflexivity|]. split; [|split].
  - intros next rest0 Hrest. pose proof (pop_spec rest) as Hs.
    rewrite Hrest in Hs. subst rest. rewrite app_assoc. apply pop_snoc.
  - intros k popped pending Hk Hrun. eapply taken_from_the_back; eassumption.
  - intros ->. now rewrite app_nil_r.
Qed.

(** Three articles of one cell on a page of 1 row and 3 columns: the root
    of C is taken first and has two successors; the two passes that follow
    take the root of B, then the root of A, and leave the two successors of
    the root of C at the back of the list. *)
Lemma pending_states_are_taken_before_new_successors_witness :
  let page0 := create_matrix 1 3 in
  let root_A := root page0 article_A in
  let root_B := root page0 article_B in
  let root_C := root page0 article_C in
  exists steps,
    make_step root_C (unplaced (dimensions three_cells) root_C) = Ok steps /\
    [root_B; root_A] = firstn 2 (rev [root_A; root_B]) /\
    exists newer,
      [place root_A article_B 0 1; place root_A article_C 0 1;
       place root_B article_A 0 1; place root_B article_C 0 1;
       place root_C article_A 0 1; place root_C article_B 0 1]
      = newer ++ steps ++ firstn (2 - 2) [root_A; root_B].
Proof.
  intros page0 root_A root_B root_C.
  destruct (@pending_states_are_taken_before_new_successors
              (dimensions three_cells)
              [root_A; root_B; root_C] []
              ([place root_C article_A 0 1; place root_C article_B 0 1]
                 ++ [root_A; root_B])
              []
              root_C [root_A; root_B]
              eq_refl eq_refl) as (steps & Hmk & _ & _ & Hnext & _).
  exists steps. split; [exact Hmk|].
  apply (Hnext 2 [root_B; root_A]
           [place root_A article_B 0 1; place root_A article_C 0 1;
            place root_B article_A 0 1; place root_B article_C 0 1;
            place root_C article_A 0 1; place root_C article_B 0 1]).
  - simpl. lia.
  - vm_compute. reflexivity.
Defined.

(** ** GridModel: what [validate_step] decides *)

Lemma filter_firstn_bound (f : Z -> bool) (n : nat) (l : list Z) :
  length (filter f (firstn n l)) <= n /\
  (length (filter f (firstn n l)) = n <->
   forall k, k < n -> exists x, nth_error l k = Some x /\ f x = true).
Proof.
  revert l. induction n as [|n IH]; intros l.
  - simpl. split; [lia|]. split; [intros _ k Hk; lia | reflexivity].
  - destruct l as [|x t]; simpl.
    + split; [lia|]. split; [discriminate|].
      intros H. destruct (H 0) as [y [Hy _]]; [lia | discriminate].
    + destruct (IH t) as [Hle Hiff]. destruct (f x) eqn:Ef; simpl.
      * split; [lia|]. split.
        -- intros H k Hk. destruct k as [|k]; simpl; [eauto|].
           apply Hiff; lia.
        -- intros H. f_equal. apply Hiff. intros k Hk.
           apply (H (S k)). lia.
      * split; [lia|]. split; [lia|].
        intros H. destruct (H 0) as [y [Hy Hfy]]; [lia|].
        simpl in Hy. inversion Hy; subst. congruence.
Qed.

Lemma filter_firstn_full (f : Z -> bool) (n : nat) (l : list Z) :
  length (filter f (firstn n l)) = n <->
  forall k, k < n -> exists x, nth_error l k = Some x /\ f x = true.
Proof. apply filter_firstn_bound. Qed.

Lemma sum_firstn_full (g : list Z -> nat) (w h : nat) (L : matrix) :
  (forall r, g r <= w) -> 0 < w ->
  list_sum (map g (firstn h L)) <= h * w /\
  (list_sum (map g (firstn h L)) = h * w <->
   forall i, i < h -> exists r, nth_error L i = Some r /\ g r = w).
Proof.
  intros Hg Hw. revert L. induction h as [|h IH]; intros L.
  - simpl. split; [lia|]. split; [intros _ i Hi; lia | reflexivity].
  - destruct L as [|r t]; simpl.
    + split; [lia|]. split; [lia|].
      intros H. destruct (H 0) as [y [Hy _]]; [lia | discriminate].
    + destruct (IH t) as [Hle Hiff]. specialize (Hg r). split; [lia|]. split.
      * intros H. assert (g r = w) by lia.
        intros i Hi. destruct i as [|i]; simpl; [eauto|].
        apply Hiff; lia.
      * intros H. destruct (H 0) as [y [Hy Hgy]]; [lia|].
        simpl in Hy. inversion Hy; subst y.
        assert (list_sum (map g (firstn h t)) = h * w); [|lia].
        apply Hiff. intros i Hi. apply (H (S i)). lia.
Qed.

Lemma validate_step_count row col h w m :
  validate_step row col h w m = true <->
  count_eq 1 (slice row h col w m) = h * w.
Proof.
  unfold validate_step.
  destruct (Nat.eqb_spec (count_eq 1 (slice row h col w m)) (h * w));
    simpl; split; intros; try congruence; discriminate.
Qed.

(** [validate_step] is true exactly when the rectangle lies in the array
    and all of its cells are empty. *)
Lemma validate_step_spec row col h w m :
  validate_step row col h w m = true <-> rect_free row col h w m.
Proof.
  rewrite validate_step_count. unfold count_eq, slice. rewrite map_map.
  destruct (Nat.eq_dec w 0) as [->|Hw].
  - rewrite Nat.mul_0_r. split.
    + intros _ i j _ Hj. lia.
    + intros _. induction (firstn h (skipn row m)); simpl; auto.
  - set (g := fun r : list Z =>
                length (filter (fun x => (x =? 1)%Z) (firstn w (skipn col r)))).
    destruct (@sum_firstn_full g w h (skipn row m)) as [_ Hiff]; [|lia|].
    { intros r. apply filter_firstn_bound. }
    fold g. rewrite Hiff. clear Hiff. unfold rect_free, cell. split.
    + intros H i j Hi Hj. destruct (H (i - row)) as [r [Hr Hgr]]; [lia|].
      rewrite nth_error_skipn in Hr. replace (row + (i - row)) with i in Hr by lia.
      rewrite Hr. unfold g in Hgr.
      pose proof (proj1 (@filter_firstn_full _ _ _) Hgr) as Hall.
      destruct (Hall (j - col)) as [x [Hx Hx1]]; [lia|].
      rewrite nth_error_skipn in Hx. replace (col + (j - col)) with j in Hx by lia.
      apply Z.eqb_eq in Hx1. subst x. exact Hx.
    + intros H i Hi.
      assert (Hc := H (row + i) col). 
      destruct (nth_error m (row + i)) as [r|] eqn:Er.
      2:{ assert (None = Some 1%Z) by (apply Hc; lia). discriminate. }
      exists r. rewrite nth_error_skipn. split; [exact Er|].
      unfold g. apply filter_firstn_full. intros k Hk.
      exists 1%Z. split; [|reflexivity].
      rewrite nth_error_skipn. specialize (H (row + i) (col + k)).
      rewrite Er in H. apply H; lia.
Qed.

(** C8, as stated, fails: the 2 x 1 rectangle anchored at (0, 0) extends
    below a page of one row and one column, and [validate_step] answers
    False; nothing is raised. *)
Lemma validate_step_out_of_bounds_is_false :
  is_grid 1 1 (create_matrix 1 1) /\ 1 < 0 + 2 /\
  validate_step 0 0 2 1 (create_matrix 1 1) = false.
Proof. split; [apply create_matrix_grid|]. split; [lia | reflexivity]. Qed.

(** C8, amended: on a page of [r] rows and [c] columns, for a rectangle
    within the page [validate_step] is True exactly when every cell of the
    rectangle is empty; for a rectangle of at least one cell that extends
    beyond the page it is False. *)
Theorem validate_step_in_and_out_of_bounds
  (row col h w r c : nat) (m : matrix) :
  is_grid r c m ->
  (row + h <= r -> col + w <= c ->
   (validate_step row col h w m = true <-> rect_free row col h w m)) /\
  (0 < h -> 0 < w -> r < row + h \/ c < col + w ->
   validate_step row col h w m = false).
Proof.
  intros [Hlen Hrows]. split.
  - intros _ _. apply validate_step_spec.
  - intros Hh Hw Hout.
    destruct (validate_step row col h w m) eqn:E; [|reflexivity].
    apply validate_step_spec in E. exfalso.
    assert (Hc := E (row + h - 1) (col + w - 1)). unfold cell in Hc.
    destruct (nth_error m (row + h - 1)) as [x|] eqn:Ex.
    2:{ assert (None = Some 1%Z) by (apply Hc; lia). discriminate. }
    assert (Hi : row + h - 1 < length m) by (apply nth_error_Some; congruence).
    assert (Hj : col + w - 1 < length x).
    { apply nth_error_Some. rewrite Hc by lia. discriminate. }
    rewrite Forall_forall in Hrows.
    rewrite (Hrows x (nth_error_In _ _ Ex)) in Hj. lia.
Qed.

(** On the page of one row [[-1; 1]]: the cell (0, 1) alone, then with a
    second column beyond the edge. *)
Lemma validate_step_in_and_out_of_bounds_witness :
  (0 + 1 <= 1 -> 1 + 1 <= 2 ->
   (validate_step 0 1 1 1 [[(-1)%Z; 1%Z]] = true <-> rect_free 0 1 1 1 [[(-1)%Z; 1%Z]])) /\
  (0 < 1 -> 0 < 2 -> 1 < 0 + 1 \/ 2 < 1 + 2 ->
   validate_step 0 1 1 2 [[(-1)%Z; 1%Z]] = false).
Proof.
  split.
  - apply (@validate_step_in_and_out_of_bounds 0 1 1 1 1 2 [[(-1)%Z; 1%Z]]).
    split; [reflexivity | repeat constructor].
  - apply (@validate_step_in_and_out_of_bounds 0 1 1 2 1 2 [[(-1)%Z; 1%Z]]).
    split; [reflexivity | repeat constructor].
Defined.

(** ** Solutions place every article once *)

Lemma not_in_spec i l : not_in i l = true <-> ~ In i l.
Proof.
  unfold not_in. rewrite negb_true_iff. split.
  - intros H Hin. assert (existsb (Nat.eqb i) l = true); [|congruence].
    apply existsb_exists. exists i. split; [exact Hin | apply Nat.eqb_refl].
  - intros H. destruct (existsb (Nat.eqb i) l) eqn:E; [|reflexivity].
    apply existsb_exists in E as [x [Hx Hix]]. apply Nat.eqb_eq in Hix. subst. tauto.
Qed.

Lemma unplaced_In dims_all s d :
  In d (unplaced dims_all s) <-> In d dims_all /\ ~ In (id d) (ids s).
Proof. unfold unplaced. rewrite filter_In, not_in_spec. reflexivity. Qed.

Lemma is_empty_true {A} (l : list A) : is_empty l = true <-> l = [].
Proof. destruct l; simpl; split; congruence. Qed.

Lemma ids_ok_root dims_all page0 d :
  In d dims_all -> ids_ok dims_all (root page0 d).
Proof.
  intros Hd. split; simpl.
  - constructor; [tauto | constructor].
  - intros x [<-|[]]. now apply in_map.
Qed.

Lemma ids_ok_place dims_all parent d row column :
  ids_ok dims_all parent -> In d (unplaced dims_all parent) ->
  ids_ok dims_all (place parent d row column).
Proof.
  intros [Hnd Hincl] Hd. apply unplaced_In in Hd as [Hd Hnew]. split; simpl.
  - apply NoDup_app; [exact Hnd | constructor; [tauto|constructor] |].
    intros x Hx [<-|[]]. tauto.
  - apply incl_app; [exact Hincl|]. intros x [<-|[]]. now apply in_map.
Qed.

Lemma ids_ok_preserved dims_all ret sols ret' sols' :
  Forall (ids_ok dims_all) ret /\
  Forall (fun s => ids_ok dims_all s /\ unplaced dims_all s = []) sols ->
  iteration dims_all ret sols = Some (Ok (ret', sols')) ->
  Forall (ids_ok dims_all) ret' /\
  Forall (fun s => ids_ok dims_all s /\ unplaced dims_all s = []) sols'.
Proof.
  intros [Hret Hsols] Hit.
  apply iteration_inv in Hit as (variant & rest & steps & -> & Hmk & -> & ->).
  apply Forall_app in Hret as [Hrest Hv]. inversion Hv as [|? ? Hvar _]; subst.
  apply make_step_shape in Hmk as [_ Hsteps]. split.
  - apply Forall_app. split; [|exact Hrest].
    eapply Forall_impl; [|exact Hsteps].
    intros s (d & row & column & Hd & _ & _ & ->). now apply ids_ok_place.
  - destruct (is_empty (unplaced dims_all variant)) eqn:E; [|exact Hsols].
    apply Forall_app. split; [exact Hsols|]. constructor; [|constructor].
    split; [exact Hvar | now apply is_empty_true].
Qed.

Lemma find_solution_ids_ok l page_rows page_columns sols :
  find_solution l page_rows page_columns = Ok sols ->
  Forall (fun s => ids_ok (dimensions l) s /\ unplaced (dimensions l) s = []) sols.
Proof.
  unfold find_solution. intros Hrun.
  apply (@find_loop_invariant (dimensions l)
           (fun ret sols =>
              Forall (ids_ok (dimensions l)) ret /\
              Forall (fun s => ids_ok (dimensions l) s /\
                               unplaced (dimensions l) s = []) sols))
    in Hrun as (ret' & [_ H] & _); [exact H | | ].
  - intros. eapply ids_ok_preserved; eassumption.
  - split; [|constructor]. apply Forall_forall. intros s Hs.
    apply in_map_iff in Hs as [d [<- Hd]]. now apply ids_ok_root.
Qed.

(** C6: when the article ids of the combination are pairwise distinct, the
    placed-id list of every Solution [find_solution] returns is a
    rearrangement of the combination's ids: every article id occurs in it
    exactly once, and nothing else does. *)
Theorem solution_places_every_article_once
  (l : layout) (page_rows page_columns : nat) (sols : list state) (s : state) :
  NoDup (map id (dimensions l)) ->
  find_solution l page_rows page_columns = Ok sols ->
  In s sols ->
  Permutation (ids s) (map id (dimensions l)) /\
  (forall d, In d (dimensions l) -> count_occ Nat.eq_dec (ids s) (id d) = 1).
Proof.
  intros Hnd Hrun Hs. apply find_solution_ids_ok in Hrun.
  rewrite Forall_forall in Hrun. destruct (Hrun s Hs) as [[Hnds Hincl] Hun].
  assert (Hall : forall d, In d (dimensions l) -> In (id d) (ids s)).
  { intros d Hd. destruct (in_dec Nat.eq_dec (id d) (ids s)) as [|Hn]; [assumption|].
    assert (In d (unplaced (dimensions l) s)) by (apply unplaced_In; tauto).
    rewrite Hun in *. contradiction. }
  split.
  - apply NoDup_Permutation; auto. intros x. split; [apply Hincl|].
    intros Hx. apply in_map_iff in Hx as [d [<- Hd]]. auto.
  - intros d Hd. apply NoDup_count_occ'; auto.
Qed.

(** The first Solution of Scenario C. *)
Lemma solution_places_every_article_once_witness :
  Permutation (ids solution_BA) (map id (dimensions scenario_C)) /\
  (forall d, In d (dimensions scenario_C) ->
             count_occ Nat.eq_dec (ids solution_BA) (id d) = 1).
Proof.
  apply (@solution_places_every_article_once scenario_C 1 2
           [solution_BA; solution_AB] solution_BA).
  - simpl. repeat constructor; simpl; intuition discriminate.
  - vm_compute. reflexivity.
  - simpl. left. reflexivity.
Defined.

(** ** Solutions are tilings *)

Lemma combine_snoc {A B} (l1 : list A) (l2 : list B) a b :
  length l1 = length l2 ->
  combine (l1 ++ [a]) (l2 ++ [b]) = combine l1 l2 ++ [(a, b)].
Proof.
  revert l2. induction l1 as [|x l1 IH]; intros [|y l2] H; simpl in *;
    try discriminate; [reflexivity|].
  f_equal. apply IH. lia.
Qed.

Lemma ForallOrdPairs_snoc {A} (R : A -> A -> Prop) l x :
  ForallOrdPairs R l -> Forall (fun y => R y x) l ->
  ForallOrdPairs R (l ++ [x]).
Proof.
  induction 1 as [|a l Ha Hl IH]; intros Hx; simpl.
  - constructor; constructor.
  - inversion Hx; subst. constructor; [|auto].
    apply Forall_app. split; [exact Ha | constructor; [assumption|constructor]].
Qed.

Lemma tiling_root dims_all page_rows page_columns d :
  In d dims_all -> rows d + gap d <= page_rows -> cols d <= page_columns ->
  tiling dims_all (root (create_matrix page_rows page_columns) d) [d].
Proof.
  intros Hd Hh Hw. unfold tiling. simpl. split; [reflexivity|].
  split; [|split; [|split]].
  - constructor; [|constructor]. repeat split; auto.
  - constructor; constructor.
  - intros p [<-|[]] i j [Hi Hj]. simpl in *.
    rewrite cell_assign_slice, cell_create_matrix by lia. simpl.
    assert (within 0 (rows d + gap d) i = true) as -> by (apply within_true; lia).
    assert (within 0 (cols d) j = true) as -> by (apply within_true; lia).
    reflexivity.
  - intros i j. rewrite cell_assign_slice.
    destruct (cell (create_matrix page_rows page_columns) i j) as [x|] eqn:E;
      simpl; [|discriminate].
    apply cell_create_matrix_inv in E. subst x.
    destruct (within 0 (rows d + gap d) i) eqn:Ei; simpl; [|discriminate].
    destruct (within 0 (cols d) j) eqn:Ej; simpl; [|discriminate].
    intros _. eexists. split; [left; reflexivity|].
    apply within_true in Ei, Ej. split; simpl; lia.
Qed.

Lemma tiling_place dims_all parent placed d row column :
  tiling dims_all parent placed ->
  In d dims_all ->
  validate_step row column (rows d + gap d) (cols d) (page parent) = true ->
  tiling dims_all (place parent d row column) (placed ++ [d]).
Proof.
  intros (Hids & Hrec & Hdis & Hfull & Hcov) Hd Hfree.
  apply validate_step_spec in Hfree.
  pose proof (Forall2_length Hrec) as Hlen.
  set (c := {| coord_id := id d; coord_col := column;
               coord_row := row; coord_cols := cols d |}).
  assert (Hnew : forall i j, covers (c, d) i j ->
                             cell (page parent) i j = Some 1%Z).
  { intros i j [Hi Hj]. simpl in *. apply Hfree; lia. }
  unfold tiling. simpl. fold c. rewrite combine_snoc by exact Hlen.
  split; [|split; [|split; [|split]]].
  - rewrite map_app, Hids. reflexivity.
  - apply Forall2_app; [exact Hrec|]. constructor; [|constructor].
    repeat split; auto.
  - apply ForallOrdPairs_snoc; [exact Hdis|].
    apply Forall_forall. intros p Hp i j [Hpc Hcc].
    specialize (Hnew i j Hcc). rewrite (Hfull p Hp i j Hpc) in Hnew. discriminate.
  - intros p Hp i j Hc. rewrite cell_assign_slice.
    apply in_app_iff in Hp as [Hp|[<-|[]]].
    + rewrite (Hfull p Hp i j Hc). simpl.
      destruct (within _ _ i && within _ _ j); reflexivity.
    + rewrite (Hnew i j Hc). simpl. destruct Hc as [Hi Hj]. simpl in *.
      assert (within row (rows d + gap d) i = true) as -> by (apply within_true; lia).
      assert (within column (cols d) j = true) as -> by (apply within_true; lia).
      reflexivity.
  - intros i j. rewrite cell_assign_slice.
    destruct (cell (page parent) i j) as [x|] eqn:E; simpl; [|discriminate].
    destruct (within row (rows d + gap d) i) eqn:Ei; simpl.
    + destruct (within column (cols d) j) eqn:Ej; simpl.
      * intros _. exists (c, d). split; [apply in_app_iff; right; now left|].
        apply within_true in Ei, Ej. split; simpl; lia.
      * intros Hx. inversion Hx; subst x.
        destruct (Hcov i j E) as [p [Hp Hc]]. exists p.
        split; [apply in_app_iff; now left | exact Hc].
    + intros Hx. inversion Hx; subst x.
      destruct (Hcov i j E) as [p [Hp Hc]]. exists p.
      split; [apply in_app_iff; now left | exact Hc].
Qed.

Lemma tiling_preserved dims_all ret sols ret' sols' :
  Forall (fun s => exists placed, tiling dims_all s placed) ret /\
  Forall (fun s => exists placed, tiling dims_all s placed) sols ->
  iteration dims_all ret sols = Some (Ok (ret', sols')) ->
  Forall (fun s => exists placed, tiling dims_all s placed) ret' /\
  Forall (fun s => exists placed, tiling dims_all s placed) sols'.
Proof.
  intros [Hret Hsols] Hit.
  apply iteration_inv in Hit as (variant & rest & steps & -> & Hmk & -> & ->).
  apply Forall_app in Hret as [Hrest Hv].
  inversion Hv as [|? ? [placed Hvar] _]; subst.
  apply make_step_shape in Hmk as [_ Hsteps]. split.
  - apply Forall_app. split; [|exact Hrest].
    eapply Forall_impl; [|exact Hsteps].
    intros s (d & row & column & Hd & _ & Hfree & ->).
    exists (placed ++ [d]). apply tiling_place; auto.
    apply unplaced_In in Hd. tauto.
  - destruct (is_empty (unplaced dims_all variant)); [|exact Hsols].
    apply Forall_app. split; [exact Hsols|]. constructor; [eauto|constructor].
Qed.

(** C5: when every variant of the combination fits within the page, each
    Solution [find_solution] returns comes from committing variants of the
    combination, one per coordinate record, whose rectangles of
    (rows + gap) x cols cells anchored at the recorded (row, col) are
    pairwise disjoint; the full cells of the Solution's page are exactly the
    cells of these rectangles. *)
Theorem solution_rectangles_pairwise_disjoint
  (l : layout) (page_rows page_columns : nat) (sols : list state) (s : state) :
  Forall (fun d => rows d + gap d <= page_rows /\ cols d <= page_columns)
         (dimensions l) ->
  find_solution l page_rows page_columns = Ok sols ->
  In s sols ->
  exists placed,
    map id placed = ids s /\
    Forall2 (records (dimensions l)) (coords s) placed /\
    ForallOrdPairs disjoint (combine (coords s) placed) /\
    (forall p, In p (combine (coords s) placed) ->
               forall i j, covers p i j -> cell (page s) i j = Some (-1)%Z) /\
    (forall i j, cell (page s) i j = Some (-1)%Z ->
                 exists p, In p (combine (coords s) placed) /\ covers p i j).
Proof.
  intros Hfit Hrun Hs. unfold find_solution in Hrun.
  apply (@find_loop_invariant (dimensions l)
           (fun ret sols =>
              Forall (fun s => exists placed, tiling (dimensions l) s placed) ret /\
              Forall (fun s => exists placed, tiling (dimensions l) s placed) sols))
    in Hrun as (ret' & [_ H] & _).
  - rewrite Forall_forall in H. exact (H s Hs).
  - intros. eapply tiling_preserved; eassumption.
  - split; [|constructor]. apply Forall_forall. intros s0 Hs0.
    apply in_map_iff in Hs0 as [d [<- Hd]]. exists [d].
    rewrite Forall_forall in Hfit. destruct (Hfit d Hd).
    now apply tiling_root.
Qed.

(** The first Solution of Scenario C. *)
Lemma solution_rectangles_pairwise_disjoint_witness :
  exists placed,
    map id placed = ids solution_BA /\
    Forall2 (records (dimensions scenario_C)) (coords solution_BA) placed /\
    ForallOrdPairs disjoint (combine (coords solution_BA) placed) /\
    (forall p, In p (combine (coords solution_BA) placed) ->
               forall i j, covers p i j -> cell (page solution_BA) i j = Some (-1)%Z) /\
    (forall i j, cell (page solution_BA) i j = Some (-1)%Z ->
                 exists p, In p (combine (coords solution_BA) placed) /\ covers p i j).
Proof.
  apply (@solution_rectangles_pairwise_disjoint scenario_C 1 2
           [solution_BA; solution_AB] solution_BA).
  - repeat constructor.
  - vm_compute. reflexivity.
  - simpl. left. reflexivity.
Defined.

(** ** VariantGenerator as written *)

Lemma filter_py_validate_area_item (combinations : list (list dim)) :
  filter_py validate_area_item combinations =
  match combinations with
  | [] => Ok []
  | _ :: _ => Raise TypeError
  end.
Proof. destruct combinations; reflexivity. Qed.

(** Whatever the catalog, [generate_layouts] yields no combination at all:
    it raises TypeError as soon as the product has a first combination. *)
Lemma generate_layouts_yields_nothing (articles : list (list dim)) :
  generate_layouts articles =
  match product articles with
  | [] => Ok []
  | _ :: _ => Raise TypeError
  end.
Proof.
  unfold generate_layouts. rewrite filter_py_validate_area_item.
  destruct (product articles); reflexivity.
Qed.

(** C3, on the catalog of one article with one variant of one cell (area 1,
    within any page of at least one cell): the combination is not yielded;
    [generate_layouts] raises TypeError, because [filter] hands
    [validate_area] the combination alone, without [columns] and [rows]. *)
Theorem generate_layouts_raises_on_one_article :
  validate_area [article_A] 1 1 = true /\
  generate_layouts [[article_A]] = Raise TypeError.
Proof. split; reflexivity. Qed.

(** ** The emitter as written *)

(** C2, on the catalog of Scenario C and its page of 1 row and 2 columns.
    Given the page size, [fast_verify] accepts the one combination of the
    catalog and [find_solution] returns its two Solutions: the pipeline has
    one group to yield.  The first [next()] on [generate_tile_orders] raises
    TypeError instead, as it does on every catalog and page size, because
    [generate_layouts] raises or, on a catalog without combinations,
    [generator_fast_verify] is called with three arguments for its one
    parameter.  No group is yielded and the loop that counts the groups is
    never entered. *)
Theorem generate_tile_orders_raises_before_any_group :
  fast_verify scenario_C 1 2 = Ok true /\
  find_solution scenario_C 1 2 = Ok [solution_BA; solution_AB] /\
  generate_tile_orders [[article_A]; [article_B]] 1 2 = Raise TypeError /\
  forall (articles : list (list dim)) (page_rows page_columns : nat),
    generate_tile_orders articles page_rows page_columns = Raise TypeError.
Proof.
  split; [vm_compute; reflexivity|]. split; [vm_compute; reflexivity|].
  split; [reflexivity|].
  intros articles page_rows page_columns.
  unfold generate_tile_orders. rewrite generate_layouts_yields_nothing.
  destruct (product articles); reflexivity.
Qed.

(** ** The filter: correlation peaks *)

Lemma cells_le1_create r c : cells_le1 (create_matrix r c).
Proof.
  unfold cells_le1, create_matrix. apply Forall_forall. intros x Hx.
  apply repeat_spec in Hx. subst. apply Forall_forall. intros y Hy.
  apply repeat_spec in Hy. subst. lia.
Qed.

Lemma cells_le1_cell m i j x : cells_le1 m -> cell m i j = Some x -> (x <= 1)%Z.
Proof.
  unfold cells_le1, cell. intros H Hc.
  destruct (nth_error m i) as [r|] eqn:Er; [|discriminate].
  apply nth_error_In in Er, Hc. rewrite Forall_forall in H.
  specialize (H r Er). rewrite Forall_forall in H. auto.
Qed.

Lemma cells_le1_intro m :
  (forall i j x, cell m i j = Some x -> (x <= 1)%Z) -> cells_le1 m.
Proof.
  intros H. apply Forall_forall. intros r Hr. apply Forall_forall. intros x Hx.
  apply In_nth_error in Hr as [i Hi]. apply In_nth_error in Hx as [j Hj].
  apply (H i j). unfold cell. now rewrite Hi.
Qed.

Lemma cells_le1_assign row h col w m :
  cells_le1 m -> cells_le1 (assign_slice row h col w (-1) m).
Proof.
  intros H. apply cells_le1_intro. intros i j x. rewrite cell_assign_slice.
  destruct (cell m i j) as [y|] eqn:E; simpl; [|discriminate].
  intros Hx. inversion Hx. apply (cells_le1_cell _ _ H) in E.
  destruct (within row h i && within col w j); lia.
Qed.

Lemma get_cell m i j :
  get m i j = match cell m i j with Some x => x | None => 0%Z end.
Proof.
  unfold get, cell. destruct (nth_error m i) as [r|] eqn:Er.
  - rewrite (nth_error_nth _ _ [] Er).
    destruct (nth_error r j) as [x|] eqn:Ex.
    + apply (nth_error_nth _ _ _ Ex).
    + apply nth_overflow. now apply nth_error_None.
  - rewrite (nth_overflow m []) by now apply nth_error_None.
    now destruct j.
Qed.

Lemma get_le1 m i j : cells_le1 m -> (get m i j <= 1)%Z.
Proof.
  intros H. rewrite get_cell. destruct (cell m i j) eqn:E; [|lia].
  eapply cells_le1_cell; eassumption.
Qed.

Lemma get_create_matrix h w a b :
  get (create_matrix h w) a b = 0%Z \/ get (create_matrix h w) a b = 1%Z.
Proof.
  rewrite get_cell. destruct (cell (create_matrix h w) a b) as [x|] eqn:E; [|auto].
  unfold cell, create_matrix in E.
  destruct (nth_error (repeat (repeat 1%Z w) h) a) as [r|] eqn:Er; [|discriminate].
  apply nth_error_In, repeat_spec in Er. subst r.
  apply nth_error_In, repeat_spec in E. auto.
Qed.

Lemma shape_create_matrix h w :
  shape (create_matrix h w) = if h =? 0 then (0, 0) else (h, w).
Proof.
  unfold shape, create_matrix. rewrite repeat_length.
  destruct h; simpl; [reflexivity|]. now rewrite repeat_length.
Qed.

Lemma shape_grid r c m :
  is_grid r c m -> shape m = if r =? 0 then (0, 0) else (r, c).
Proof.
  unfold shape, is_grid. intros [Hl Hr]. rewrite Hl.
  destruct m as [|x t]; simpl in *; subst; simpl; [reflexivity|].
  inversion Hr; subst. reflexivity.
Qed.

Lemma zsum_le_length (l : list Z) :
  Forall (fun x => (x <= 1)%Z) l -> (zsum l <= Z.of_nat (length l))%Z.
Proof. induction 1; simpl zsum; simpl length; lia. Qed.

Lemma zsum_full (l : list Z) :
  Forall (fun x => (x <= 1)%Z) l -> zsum l = Z.of_nat (length l) ->
  Forall (fun x => x = 1%Z) l.
Proof.
  induction 1 as [|x l Hx Hl IH]; intros Hs; [constructor|].
  pose proof (zsum_le_length Hl). simpl zsum in Hs. simpl length in Hs.
  constructor; [lia | apply IH; lia].
Qed.

Lemma window_length r c f : length (window r c f) = r * c.
Proof.
  unfold window. generalize 0 at 2 as k.
  induction r as [|r IH]; intros k; simpl; [reflexivity|].
  rewrite length_app, length_map, length_seq, IH. reflexivity.
Qed.

Lemma window_In r c f x :
  In x (window r c f) <-> exists a b, a < r /\ b < c /\ x = f a b.
Proof.
  unfold window. rewrite in_flat_map. split.
  - intros [a [Ha Hx]]. apply in_map_iff in Hx as [b [<- Hb]].
    apply in_seq in Ha, Hb. exists a, b. repeat split; lia.
  - intros (a & b & Ha & Hb & ->). exists a. split; [apply in_seq; lia|].
    apply in_map_iff. exists b. split; [reflexivity | apply in_seq; lia].
Qed.

Lemma window_sum_le r c f :
  (forall a b, a < r -> b < c -> (f a b <= 1)%Z) ->
  (window_sum r c f <= Z.of_nat (r * c))%Z.
Proof.
  intros H. rewrite <- (window_length r c f). unfold window_sum. apply zsum_le_length.
  apply Forall_forall. intros x Hx. apply window_In in Hx as (a & b & ? & ? & ->). auto.
Qed.

Lemma window_sum_full r c f :
  (forall a b, a < r -> b < c -> (f a b <= 1)%Z) ->
  window_sum r c f = Z.of_nat (r * c) ->
  forall a b, a < r -> b < c -> f a b = 1%Z.
Proof.
  intros H Hs a b Ha Hb.
  assert (Hall : Forall (fun x => x = 1%Z) (window r c f)).
  { apply zsum_full.
    - apply Forall_forall. intros x Hx.
      apply window_In in Hx as (a0 & b0 & ? & ? & ->). auto.
    - rewrite window_length. exact Hs. }
  rewrite Forall_forall in Hall. apply Hall. apply window_In. eauto.
Qed.

Lemma cell_table r c f i j :
  cell (table r c f) i j = if (i <? r) && (j <? c) then Some (f i j) else None.
Proof.
  unfold cell, table. rewrite nth_error_map.
  destruct (Nat.ltb_spec i r) as [Hi|Hi]; simpl.
  - rewrite nth_error_seq. destruct (Nat.ltb_spec i r); [|lia]. simpl.
    rewrite nth_error_map, nth_error_seq.
    destruct (Nat.ltb_spec j c); reflexivity.
  - rewrite nth_error_seq. destruct (Nat.ltb_spec i r); [lia|]. reflexivity.
Qed.

Lemma first_in_row_Some v r k j :
  first_in_row v r k = Some j -> k <= j /\ nth_error r (j - k) = Some v.
Proof.
  revert k. induction r as [|x t IH]; simpl; intros k H; [discriminate|].
  destruct (Z.eqb_spec x v).
  - inversion H; subst. rewrite Nat.sub_diag. simpl. auto.
  - apply IH in H as [Hk Hn]. split; [lia|].
    replace (j - k) with (S (j - S k)) by lia. exact Hn.
Qed.

Lemma first_where_Some v m k i j :
  first_where v m k = Some (i, j) -> k <= i /\ cell m (i - k) j = Some v.
Proof.
  revert k. induction m as [|r t IH]; simpl; intros k H; [discriminate|].
  destruct (first_in_row v r 0) as [j0|] eqn:E.
  - inversion H; subst. rewrite Nat.sub_diag. unfold cell. simpl.
    apply first_in_row_Some in E as [_ E]. rewrite Nat.sub_0_r in E. auto.
  - apply IH in H as [Hk Hc]. split; [lia|].
    replace (i - k) with (S (i - S k)) by lia. exact Hc.
Qed.

Lemma first_where_None v m k :
  (forall i j, cell m i j <> Some v) -> first_where v m k = None.
Proof.
  intros H. destruct (first_where v m k) as [[i j]|] eqn:E; [|reflexivity].
  apply first_where_Some in E as [_ E]. now apply H in E.
Qed.

Lemma mul_le1 (x k : Z) :
  (x <= 1)%Z -> k = 0%Z \/ k = 1%Z -> (x * k <= 1)%Z /\ ((x * k = 1)%Z -> x = 1%Z).
Proof. intros Hx [->| ->]; lia. Qed.

(** A peak of the correlation of the page with a footprint of ones: the
    footprint is not empty, lies within the page at the peak's position, and
    covers empty cells only. *)
Lemma correlate_peak r c page h w corr row col :
  is_grid r c page -> cells_le1 page ->
  correlate_valid page (create_matrix h w) = Ok corr ->
  first_where (Z.of_nat (h * w)) corr 0 = Some (row, col) ->
  0 < h /\ 0 < w /\ row + h <= r /\ col + w <= c /\ rect_free row col h w page.
Proof.
  intros Hg Hle Hcorr Hpeak. unfold correlate_valid in Hcorr.
  rewrite (shape_grid Hg), shape_create_matrix in Hcorr.
  assert (Hpos : 0 < r /\ 0 < c /\ 0 < h /\ 0 < w).
  { destruct r, c, h, w; try (repeat split; lia); simpl in Hcorr; discriminate. }
  destruct Hpos as (Hr & Hc & Hh & Hw).
  replace (r =? 0) with false in Hcorr by (symmetry; apply Nat.eqb_neq; lia).
  replace (h =? 0) with false in Hcorr by (symmetry; apply Nat.eqb_neq; lia).
  cbv beta iota zeta in Hcorr.
  replace (r =? 0) with false in Hcorr by (symmetry; apply Nat.eqb_neq; lia).
  replace (h =? 0) with false in Hcorr by (symmetry; apply Nat.eqb_neq; lia).
  replace (c =? 0) with false in Hcorr by (symmetry; apply Nat.eqb_neq; lia).
  replace (w =? 0) with false in Hcorr by (symmetry; apply Nat.eqb_neq; lia).
  cbn [orb] in Hcorr.
  apply first_where_Some in Hpeak as [_ Hpeak]. rewrite Nat.sub_0_r in Hpeak.
  assert (Hterm : forall i j a b,
             (get page i j * get (create_matrix h w) a b <= 1)%Z /\
             ((get page i j * get (create_matrix h w) a b = 1)%Z ->
              get page i j = 1%Z)).
  { intros. apply mul_le1; [now apply get_le1 | apply get_create_matrix]. }
  destruct ((h <=? r) && (w <=? c)) eqn:E1.
  - apply andb_prop in E1 as [Eh Ew]. apply Nat.leb_le in Eh, Ew.
    inversion Hcorr; subst corr; clear Hcorr. rewrite cell_table in Hpeak.
    destruct ((row <? r - h + 1) && (col <? c - w + 1)) eqn:Ein; [|discriminate].
    apply andb_prop in Ein as [Hrow Hcol]. apply Nat.ltb_lt in Hrow, Hcol.
    inversion Hpeak as [Hsum]; clear Hpeak.
    repeat split; try lia.
    intros i j Hi Hj.
    assert (H1 : get page i j = 1%Z).
    { replace i with (row + (i - row)) by lia. replace j with (col + (j - col)) by lia.
      apply (proj2 (Hterm _ _ (i - row) (j - col))).
      apply (@window_sum_full h w
               (fun a b => (get page (row + a) (col + b) *
                            get (create_matrix h w) a b)%Z));
        try lia; try exact Hsum; intros; apply Hterm. }
    rewrite get_cell in H1. destruct (cell page i j); [congruence | discriminate].
  - destruct ((r <=? h) && (c <=? w)) eqn:E2; [|discriminate].
    apply andb_prop in E2 as [Eh Ew]. apply Nat.leb_le in Eh, Ew.
    inversion Hcorr; subst corr; clear Hcorr. rewrite cell_table in Hpeak.
    destruct ((row <? h - r + 1) && (col <? w - c + 1)); [|discriminate].
    inversion Hpeak as [Hsum]; clear Hpeak. exfalso.
    assert (Hb : (window_sum r c
                    (fun a b => get page a b *
                                get (create_matrix h w) (a + (h - r) - row)
                                    (b + (w - c) - col)) <= Z.of_nat (r * c))%Z).
    { apply window_sum_le. intros. apply Hterm. }
    rewrite Hsum in Hb. apply andb_false_iff in E1.
    rewrite !Nat.leb_gt in E1. nia.
Qed.

Lemma correlate_straddle r c page h w :
  is_grid r c page -> straddles h w r c ->
  correlate_valid page (create_matrix h w) = Raise ValueError.
Proof.
  intros Hg Hs. unfold correlate_valid.
  rewrite (shape_grid Hg), shape_create_matrix.
  destruct (r =? 0) eqn:Er, (h =? 0) eqn:Eh; cbv beta iota zeta;
    rewrite ?Er, ?Eh; try reflexivity.
  - destruct (c =? 0); reflexivity.
  - destruct (c =? 0); [reflexivity|]. destruct (w =? 0); [reflexivity|].
    cbn [orb].
    assert ((h <=? r) && (w <=? c) = false) as ->.
    { apply andb_false_iff. rewrite !Nat.leb_gt. destruct Hs; lia. }
    assert ((r <=? h) && (c <=? w) = false) as ->.
    { apply andb_false_iff. rewrite !Nat.leb_gt. destruct Hs; lia. }
    reflexivity.
Qed.

Lemma max_peak_create_matrix h w :
  0 < h ->
  fst (shape (create_matrix h w)) * snd (shape (create_matrix h w)) = h * w.
Proof. intros Hh. rewrite shape_create_matrix. destruct h; [lia | reflexivity]. Qed.

Lemma correlate_Ok_nonempty page h w corr :
  correlate_valid page (create_matrix h w) = Ok corr -> 0 < h.
Proof.
  unfold correlate_valid. rewrite shape_create_matrix.
  destruct (shape page) as [r1 c1]. destruct h; [|lia]. simpl.
  destruct ((r1 =? 0) || (c1 =? 0)); discriminate.
Qed.

(** One accepted pass through the filter's loop: the variant fits the page,
    its footprint has at least one cell, and it was put on empty cells. *)
Lemma fast_verify_loop_cons r c page d rest b :
  is_grid r c page -> cells_le1 page ->
  fast_verify_loop (d :: rest) page = Ok b ->
  b = false \/
  exists row col,
    0 < rows d + gap d /\ 0 < cols d /\
    row + (rows d + gap d) <= r /\ col + cols d <= c /\
    rect_free row col (rows d + gap d) (cols d) page /\
    fast_verify_loop rest
      (assign_slice row (rows d + gap d) col (cols d) (-1) page) = Ok b.
Proof.
  intros Hg Hle H. cbn [fast_verify_loop] in H. cbv zeta in H.
  destruct (correlate_valid page (create_matrix (rows d + gap d) (cols d)))
    as [corr|e] eqn:Ec; unfold bind in H; [|discriminate].
  pose proof (@correlate_Ok_nonempty _ _ _ _ Ec) as Hh.
  rewrite (@max_peak_create_matrix _ (cols d) Hh) in H.
  destruct (first_where _ corr 0) as [[row col]|] eqn:Ep.
  - right. exists row, col.
    destruct (@correlate_peak r c page _ _ corr row col Hg Hle Ec Ep)
      as (? & ? & ? & ? & ?). auto 10.
  - left. congruence.
Qed.

Lemma fast_verify_loop_oversize r c d order :
  In d order -> r < rows d + gap d \/ c < cols d ->
  forall page, is_grid r c page -> cells_le1 page ->
               fast_verify_loop order page <> Ok true.
Proof.
  intros Hin Hbig. induction order as [|d0 rest IH]; [contradiction|].
  intros page Hg Hle H.
  apply (@fast_verify_loop_cons r c page d0 rest true Hg Hle) in H
    as [H | (row & col & _ & _ & Hr & Hc & _ & H)]; [discriminate|].
  destruct Hin as [->|Hin]; [lia|].
  apply (IH Hin) in H; auto.
  - now apply assign_slice_grid.
  - now apply cells_le1_assign.
Qed.

(** [sorted] rearranges its argument. *)
Lemma insert_by_perm {A} (key : A -> nat) x l : Permutation (insert_by key x l) (x :: l).
Proof.
  induction l as [|y t IH]; simpl; [reflexivity|].
  destruct (key y <? key x); [|reflexivity].
  rewrite IH. apply perm_swap.
Qed.

Lemma sorted_perm {A} (key : A -> nat) l : Permutation (sorted key l) l.
Proof.
  induction l as [|x t IH]; simpl; [reflexivity|].
  rewrite insert_by_perm. now constructor.
Qed.

Lemma examination_order_perm (dims : list dim) :
  Permutation (rev (sorted area dims)) dims.
Proof. rewrite <- Permutation_rev. apply sorted_perm. Qed.

(** ** The filter on a variant larger than the page *)

(** C10, as stated, fails: the combination holds a variant of 3 rows for a
    page of 2 rows, and [fast_verify] returns False.  The two squares have
    the larger area and are examined first; the second finds no position, so
    the loop returns before the tall variant is correlated. *)
Lemma fast_verify_rejects_before_oversized_variant :
  In tall_3 (dimensions two_squares_and_tall) /\
  2 < rows tall_3 + gap tall_3 /\
  fast_verify two_squares_and_tall 2 2 = Ok false.
Proof.
  split; [simpl; tauto|]. split; [simpl; lia|]. vm_compute. reflexivity.
Qed.

(** The correlation of a page with a footprint of ones, by the sizes of the
    two arrays. *)
Lemma correlate_valid_sizes r c page h w :
  is_grid r c page ->
  correlate_valid page (create_matrix h w) =
  if (r =? 0) || (c =? 0) || (h =? 0) || (w =? 0) then Raise ValueError
  else if (h <=? r) && (w <=? c) then
    Ok (table (r - h + 1) (c - w + 1)
          (fun i j => window_sum h w
                        (fun a b => (get page (i + a) (j + b) *
                                     get (create_matrix h w) a b)%Z)))
  else if (r <=? h) && (c <=? w) then
    Ok (table (h - r + 1) (w - c + 1)
          (fun i j => window_sum r c
                        (fun a b => (get page a b *
                                     get (create_matrix h w)
                                         (a + (h - r) - i) (b + (w - c) - j))%Z)))
  else Raise ValueError.
Proof.
  intros Hg. unfold correlate_valid. rewrite (shape_grid Hg), shape_create_matrix.
  destruct (r =? 0) eqn:Er, (h =? 0) eqn:Eh; cbv beta iota zeta;
    rewrite ?Er, ?Eh; try reflexivity.
  destruct (c =? 0); reflexivity.
Qed.

Lemma correlate_valid_exn in1 in2 e :
  correlate_valid in1 in2 = Raise e -> e = ValueError.
Proof.
  unfold correlate_valid. destruct (shape in1) as [r1 c1], (shape in2) as [r2 c2].
  destruct ((r1 =? 0) || (c1 =? 0) || (r2 =? 0) || (c2 =? 0)); [congruence|].
  destruct ((r2 <=? r1) && (c2 <=? c1)); [discriminate|].
  destruct ((r1 <=? r2) && (c1 <=? c2)); [discriminate|congruence].
Qed.

Lemma fast_verify_loop_exn order page e :
  fast_verify_loop order page = Raise e -> e = ValueError.
Proof.
  revert page. induction order as [|d rest IH]; intros page; [discriminate|].
  cbn [fast_verify_loop]. cbv zeta.
  destruct (correlate_valid page (create_matrix (rows d + gap d) (cols d)))
    as [corr|e0] eqn:Ec; unfold bind.
  - destruct (first_where _ corr 0) as [[row col]|]; [apply IH | discriminate].
  - intros H. inversion H; subst. eapply correlate_valid_exn; eassumption.
Qed.

(** The variant examined is at least as large as the page along both axes
    and larger along one: scipy exchanges the two arrays, no cell of the
    correlation reaches the size of the footprint, and the loop returns
    False. *)
Lemma fast_verify_loop_covering r c page d rest :
  is_grid r c page -> cells_le1 page ->
  0 < r -> 0 < c -> r <= rows d + gap d -> c <= cols d ->
  r < rows d + gap d \/ c < cols d ->
  fast_verify_loop (d :: rest) page = Ok false.
Proof.
  intros Hg Hle Hr Hc Hh Hw Hbig. cbn [fast_verify_loop]. cbv zeta.
  destruct (correlate_valid page (create_matrix (rows d + gap d) (cols d)))
    as [corr|e] eqn:Ec; unfold bind.
  - rewrite max_peak_create_matrix by lia.
    destruct (first_where _ corr 0) as [[row col]|] eqn:Ep; [|reflexivity].
    destruct (@correlate_peak r c page _ _ corr row col Hg Hle Ec Ep)
      as (_ & _ & Hrow & Hcol & _).
    lia.
  - rewrite (correlate_valid_sizes _ _ Hg) in Ec.
    assert ((r =? 0) || (c =? 0) || (rows d + gap d =? 0) || (cols d =? 0) = false)
      as Hz.
    { rewrite !orb_false_iff, !Nat.eqb_neq. lia. }
    rewrite Hz in Ec.
    assert ((rows d + gap d <=? r) && (cols d <=? c) = false) as Hfit.
    { apply andb_false_iff. rewrite !Nat.leb_gt. lia. }
    rewrite Hfit in Ec.
    assert ((r <=? rows d + gap d) && (c <=? cols d) = true) as Hcov.
    { apply andb_true_intro. rewrite !Nat.leb_le. lia. }
    rewrite Hcov in Ec. discriminate.
Qed.

Lemma fast_verify_loop_no_cell r c page d rest :
  is_grid r c page -> r = 0 \/ c = 0 ->
  fast_verify_loop (d :: rest) page = Raise ValueError.
Proof.
  intros Hg Hz. cbn [fast_verify_loop]. cbv zeta.
  rewrite (correlate_valid_sizes _ _ Hg).
  assert ((r =? 0) || (c =? 0) = true) as ->.
  { apply orb_true_iff. rewrite !Nat.eqb_eq. exact Hz. }
  reflexivity.
Qed.

(** C10, amended: a combination that holds a variant whose footprint is
    taller or wider than the page is never accepted by [fast_verify]: the
    call returns False or raises ValueError.  When such a variant is the
    first one examined, the call raises ValueError if the page has no cell
    or if the footprint, larger than the page along one axis, is smaller
    along the other; it returns False if the page has a cell and the
    footprint is at least as large as the page along both axes. *)
Theorem oversized_variant_is_rejected_or_raises
  (l : layout) (d : dim) (page_rows page_columns : nat) :
  In d (dimensions l) ->
  page_rows < rows d + gap d \/ page_columns < cols d ->
  (fast_verify l page_rows page_columns = Ok false \/
   fast_verify l page_rows page_columns = Raise ValueError) /\
  (hd_error (rev (sorted area (dimensions l))) = Some d ->
   (page_rows = 0 \/ page_columns = 0 \/
    straddles (rows d + gap d) (cols d) page_rows page_columns ->
    fast_verify l page_rows page_columns = Raise ValueError) /\
   (0 < page_rows -> 0 < page_columns ->
    page_rows <= rows d + gap d -> page_columns <= cols d ->
    fast_verify l page_rows page_columns = Ok false)).
Proof.
  intros Hin Hbig. unfold fast_verify.
  pose proof (create_matrix_grid page_rows page_columns) as Hg.
  pose proof (cells_le1_create page_rows page_columns) as Hle.
  split.
  - destruct (fast_verify_loop (rev (sorted area (dimensions l)))
                (create_matrix page_rows page_columns)) as [[|]|e] eqn:E.
    + exfalso. revert E.
      apply fast_verify_loop_oversize with (r := page_rows) (c := page_columns) (d := d);
        auto.
      apply (Permutation_in d (Permutation_sym (examination_order_perm _)) Hin).
    + left. reflexivity.
    + right. f_equal. eapply fast_verify_loop_exn; eassumption.
  - intros Hhd.
    destruct (rev (sorted area (dimensions l))) as [|d0 rest]; [discriminate|].
    inversion Hhd; subst d0. split.
    + intros [Hz|[Hz|Hs]].
      * eapply fast_verify_loop_no_cell; eauto.
      * eapply fast_verify_loop_no_cell; eauto.
      * cbn [fast_verify_loop]. cbv zeta.
        rewrite (@correlate_straddle page_rows page_columns); auto.
    + intros Hr Hc Hh Hw.
      apply fast_verify_loop_covering with (r := page_rows) (c := page_columns); auto.
Qed.

(** On a page of 2 x 2 cells: the variant of 3 rows and 1 column alone
    makes the call raise ValueError, the variant whose footprint has 3 rows
    and 3 columns alone makes it return False. *)
Lemma oversized_variant_is_rejected_or_raises_witness :
  fast_verify (add_area [tall_3]) 2 2 = Raise ValueError /\
  fast_verify (add_area [mkDim 7 3 2 1 9]) 2 2 = Ok false.
Proof.
  split.
  - destruct (@oversized_variant_is_rejected_or_raises (add_area [tall_3]) tall_3 2 2)
      as [_ Hfirst].
    + simpl. left. reflexivity.
    + simpl. lia.
    + apply Hfirst; [reflexivity|]. right. right. left. simpl. lia.
  - destruct (@oversized_variant_is_rejected_or_raises
                (add_area [mkDim 7 3 2 1 9]) (mkDim 7 3 2 1 9) 2 2)
      as [_ Hfirst].
    + simpl. left. reflexivity.
    + simpl. lia.
    + apply Hfirst; simpl; try reflexivity; lia.
Defined.

(** ** The filter accepts no more than the page can hold *)

Lemma sum_mapi_window {A} (wt : A -> nat) (g : A -> A) (d lo len : nat) :
  forall (l : list A) (k : nat),
    (forall i x, nth_error l i = Some x -> within lo len (k + i) = true ->
                 wt (g x) + d = wt x) ->
    d = 0 \/ len = 0 \/ lo + len <= k + length l ->
    list_sum (map wt (mapi_from (fun i x => if within lo len i then g x else x) k l))
      + (lo + len - Nat.max lo k) * d
    = list_sum (map wt l).
Proof.
  induction l as [|x t IH]; intros k Hin Hb.
  - simpl. destruct Hb as [->|[->|Hb]]; simpl in *; lia.
  - cbn [mapi_from map list_sum]. specialize (IH (S k)).
    assert (IH' : list_sum (map wt (mapi_from
                    (fun i x => if within lo len i then g x else x) (S k) t))
                  + (lo + len - Nat.max lo (S k)) * d = list_sum (map wt t)).
    { apply IH.
      - intros i y Hy Hw. apply (Hin (S i)); [exact Hy|].
        now rewrite Nat.add_succ_r.
      - simpl in Hb. lia. }
    clear IH. destruct (within lo len k) eqn:Ew.
    + pose proof (Hin 0 x eq_refl) as Hx. rewrite Nat.add_0_r in Hx.
      specialize (Hx Ew). apply within_true in Ew.
      replace (lo + len - Nat.max lo k) with (S (lo + len - Nat.max lo (S k))) by lia.
      remember (lo + len - Nat.max lo (S k)) as u. simpl. lia.
    + assert (Hk : k < lo \/ lo + len <= k).
      { destruct (Nat.lt_ge_cases k lo); [auto|].
        destruct (Nat.lt_ge_cases k (lo + len)); [|auto].
        assert (within lo len k = true) by (apply within_true; lia). congruence. }
      replace (lo + len - Nat.max lo k) with (lo + len - Nat.max lo (S k)) by lia.
      remember (lo + len - Nat.max lo (S k)) as u. simpl. lia.
Qed.

Lemma filter_length_sum (f : Z -> bool) (l : list Z) :
  length (filter f l) = list_sum (map (fun x => if f x then 1 else 0) l).
Proof.
  induction l as [|x t IH]; simpl; [reflexivity|].
  destruct (f x); simpl; lia.
Qed.

Lemma row_count_assign (col w : nat) (r : list Z) :
  (forall j, col <= j < col + w -> nth_error r j = Some 1%Z) ->
  length (filter (fun x => (x =? 1)%Z)
            (mapi_from (fun j x => if within col w j then (-1)%Z else x) 0 r)) + w
  = length (filter (fun x => (x =? 1)%Z) r).
Proof.
  intros H. rewrite !filter_length_sum.
  pose proof (@sum_mapi_window Z (fun x => if (x =? 1)%Z then 1 else 0)
                (fun _ => (-1)%Z) 1 col w r 0) as Hs.
  replace (col + w - Nat.max col 0) with w in Hs by lia.
  rewrite Nat.mul_1_r in Hs. apply Hs.
  - intros i x Hx Hw. simpl in Hw. apply within_true in Hw.
    rewrite (H i Hw) in Hx. inversion Hx. reflexivity.
  - destruct w as [|w']; [auto|]. right. right. simpl.
    assert (col + w' < length r); [|lia].
    apply nth_error_Some. rewrite H by lia. discriminate.
Qed.

Lemma count_assign_slice row col h w m :
  rect_free row col h w m ->
  count_eq 1 (assign_slice row h col w (-1) m) + h * w = count_eq 1 m.
Proof.
  intros Hfree. unfold count_eq, assign_slice.
  pose proof (@sum_mapi_window (list Z)
                (fun r => length (filter (fun x => (x =? 1)%Z) r))
                (fun r => mapi_from (fun j x => if within col w j then (-1)%Z else x) 0 r)
                w row h m 0) as Hs.
  replace (row + h - Nat.max row 0) with h in Hs by lia.
  apply Hs.
  - intros i r Hr Hw. simpl in Hw. apply within_true in Hw.
    apply row_count_assign. intros j Hj.
    specialize (Hfree i j Hw Hj). unfold cell in Hfree. now rewrite Hr in Hfree.
  - destruct w as [|w']; [auto|]. destruct h as [|h']; [auto|].
    right. right. simpl.
    assert (row + h' < length m); [|lia].
    apply nth_error_Some. specialize (Hfree (row + h') col).
    unfold cell in Hfree. destruct (nth_error m (row + h')); [discriminate|].
    assert (None = Some 1%Z) by (apply Hfree; lia). discriminate.
Qed.

Lemma count_create_matrix r c : count_eq 1 (create_matrix r c) = r * c.
Proof.
  unfold count_eq, create_matrix. induction r as [|r IH]; simpl; [reflexivity|].
  rewrite IH. f_equal. clear IH. induction c as [|c IHc]; simpl; [reflexivity|].
  now rewrite IHc.
Qed.

(** Every variant the filter's loop accepts has a footprint of at least one
    cell inside the page, and together the footprints need no more cells
    than the scratch page has empty. *)
Lemma fast_verify_loop_area r c order :
  forall page,
    is_grid r c page -> cells_le1 page ->
    fast_verify_loop order page = Ok true ->
    list_sum (map footprint order) <= count_eq 1 page /\
    Forall (fun d => 0 < rows d + gap d /\ 0 < cols d /\
                     rows d + gap d <= r /\ cols d <= c) order.
Proof.
  induction order as [|d rest IH]; intros page Hg Hle H.
  - simpl. split; [lia | constructor].
  - apply (@fast_verify_loop_cons r c page d rest true Hg Hle) in H
      as [H | (row & col & Hh & Hw & Hr & Hc & Hfree & H)]; [discriminate|].
    apply IH in H as [Hsum Hall].
    + rewrite <- (count_assign_slice Hfree). split.
      * simpl map. simpl list_sum. unfold footprint at 1. lia.
      * constructor; [|exact Hall]. repeat split; lia.
    + now apply assign_slice_grid.
    + now apply cells_le1_assign.
Qed.

Lemma fast_verify_area l page_rows page_columns :
  fast_verify l page_rows page_columns = Ok true ->
  list_sum (map footprint (dimensions l)) <= page_rows * page_columns /\
  Forall (fun d => 0 < rows d + gap d /\ 0 < cols d /\
                   rows d + gap d <= page_rows /\ cols d <= page_columns)
         (dimensions l).
Proof.
  unfold fast_verify. intros H.
  apply (@fast_verify_loop_area page_rows page_columns) in H as [Hsum Hall].
  - rewrite count_create_matrix in Hsum.
    pose proof (examination_order_perm (dimensions l)) as Hp. split.
    + rewrite <- (Permutation_list_sum (Permutation_map footprint Hp)). exact Hsum.
    + eapply Permutation_Forall; eassumption.
  - apply create_matrix_grid.
  - apply cells_le1_create.
Qed.

(** ** The solver on variants as wide as the page *)

Lemma stacked_grid r c filled : filled <= r -> is_grid r c (stacked r c filled).
Proof.
  intros H. unfold is_grid, stacked. split.
  - rewrite length_app, !repeat_length. lia.
  - apply Forall_app. split; apply Forall_forall; intros x Hx;
      apply repeat_spec in Hx; subst; apply repeat_length.
Qed.

Lemma cell_stacked r c filled i j :
  filled <= r -> i < r -> j < c ->
  cell (stacked r c filled) i j = Some (if i <? filled then (-1)%Z else 1%Z).
Proof.
  intros Hf Hi Hj. unfold cell, stacked. rewrite nth_error_app, repeat_length.
  destruct (Nat.ltb_spec i filled).
  - rewrite nth_error_repeat by lia. now apply nth_error_repeat.
  - rewrite nth_error_repeat by lia. now apply nth_error_repeat.
Qed.

Lemma grid_ext r c m1 m2 :
  is_grid r c m1 -> is_grid r c m2 ->
  (forall i j, i < r -> j < c -> cell m1 i j = cell m2 i j) ->
  m1 = m2.
Proof.
  intros [Hl1 Hr1] [Hl2 Hr2] Hc. apply nth_error_ext. intros i.
  destruct (Nat.lt_ge_cases i r) as [Hi|Hi].
  - destruct (nth_error m1 i) as [x1|] eqn:E1.
    2:{ apply nth_error_None in E1. lia. }
    destruct (nth_error m2 i) as [x2|] eqn:E2.
    2:{ apply nth_error_None in E2. lia. }
    f_equal. apply nth_error_ext. intros j.
    rewrite Forall_forall in Hr1, Hr2.
    pose proof (Hr1 _ (nth_error_In _ _ E1)) as Hx1.
    pose proof (Hr2 _ (nth_error_In _ _ E2)) as Hx2.
    destruct (Nat.lt_ge_cases j c) as [Hj|Hj].
    + specialize (Hc i j Hi Hj). unfold cell in Hc. now rewrite E1, E2 in Hc.
    + rewrite (proj2 (nth_error_None x1 j)) by lia.
      rewrite (proj2 (nth_error_None x2 j)) by lia. reflexivity.
  - rewrite (proj2 (nth_error_None m1 i)) by lia.
    rewrite (proj2 (nth_error_None m2 i)) by lia. reflexivity.
Qed.

Lemma create_matrix_stacked r c : create_matrix r c = stacked r c 0.
Proof. unfold stacked, create_matrix. simpl. now rewrite Nat.sub_0_r. Qed.

Lemma assign_stacked r c filled h :
  filled + h <= r ->
  assign_slice filled h 0 c (-1) (stacked r c filled) = stacked r c (filled + h).
Proof.
  intros H. apply (@grid_ext r c).
  - apply assign_slice_grid, stacked_grid. lia.
  - apply stacked_grid. lia.
  - intros i j Hi Hj. rewrite cell_assign_slice, !cell_stacked by lia. simpl.
    f_equal. unfold within.
    destruct (Nat.leb_spec filled i), (Nat.ltb_spec i (filled + h)),
      (Nat.ltb_spec i filled), (Nat.leb_spec 0 j), (Nat.ltb_spec j (0 + c));
      simpl; try reflexivity; lia.
Qed.

Lemma first_in_row_full c k : first_in_row 1 (repeat (-1)%Z c) k = None.
Proof. revert k. induction c; simpl; auto. Qed.

Lemma first_where_stacked c filled rest k :
  first_where 1 (repeat (repeat (-1)%Z c) filled ++ rest) k
  = first_where 1 rest (k + filled).
Proof.
  revert k. induction filled as [|n IH]; intros k; simpl.
  - now rewrite Nat.add_0_r.
  - rewrite first_in_row_full, IH. f_equal. lia.
Qed.

Lemma find_empty_cel_stacked r c filled :
  filled < r -> 0 < c -> find_empty_cel (stacked r c filled) = Ok (filled, 0).
Proof.
  intros Hf Hc. unfold find_empty_cel, stacked. rewrite first_where_stacked.
  destruct (r - filled) as [|n] eqn:E; [lia|]. destruct c as [|c']; [lia|].
  reflexivity.
Qed.

Lemma validate_step_stacked r c filled h :
  filled + h <= r -> validate_step filled 0 h c (stacked r c filled) = true.
Proof.
  intros H. apply validate_step_spec. intros i j Hi Hj.
  rewrite cell_stacked by lia.
  destruct (Nat.ltb_spec i filled); [lia | reflexivity].
Qed.

(** [make_step] tries the variants in order and keeps those that fit at the
    first empty cell. *)
Lemma make_step_at parent dims row column :
  find_empty_cel (page parent) = Ok (row, column) ->
  make_step parent dims =
  Ok (map (fun d => place parent d row column)
          (filter (fun d => validate_step row column (rows d + gap d) (cols d)
                                          (page parent)) dims)).
Proof.
  intros Hcel. induction dims as [|d t IH]; [reflexivity|].
  cbn [make_step]. rewrite Hcel, IH. unfold bind. cbn [filter].
  destruct (validate_step row column (rows d + gap d) (cols d) (page parent));
    reflexivity.
Qed.

(** Progress rule for the loop: when every pending state can be expanded
    without an exception, into states of the same kind and into at least one
    of them unless it is complete, the loop returns a Solution. *)
Lemma find_loop_progress dims_all (P : state -> Prop) :
  (forall s, P s ->
             exists steps,
               make_step s (unplaced dims_all s) = Ok steps /\
               Forall P steps /\
               (unplaced dims_all s <> [] -> steps <> [])) ->
  forall ret sols,
    Forall P ret -> ret <> [] \/ sols <> [] ->
    exists out, find_loop dims_all ret sols = Ok out /\ out <> [].
Proof.
  intros Hexp ret.
  remember (pending_weight dims_all ret) as n eqn:Hn. revert ret Hn.
  induction n as [n IH] using lt_wf_ind.
  intros ret Hn sols HP Hne. rewrite find_loop_step.
  destruct (iteration dims_all ret sols) as [[[ret' sols']|e]|] eqn:E.
  - pose proof (iteration_decreases _ _ _ E) as Hdec.
    apply iteration_inv in E as (variant & rest & steps & -> & Hmk & -> & ->).
    apply Forall_app in HP as [Hrest Hv]. inversion Hv as [|? ? Hvar _]; subst.
    destruct (Hexp _ Hvar) as (steps' & Hmk' & Hsteps & Hprog).
    rewrite Hmk in Hmk'. inversion Hmk'; subst steps'.
    eapply (IH _ Hdec); [reflexivity | |].
    + apply Forall_app. auto.
    + destruct (unplaced dims_all variant) as [|d t] eqn:Eu; simpl.
      * right. destruct sols; discriminate.
      * left. assert (steps <> []) by (apply Hprog; discriminate).
        destruct steps; [contradiction | discriminate].
  - exfalso. unfold iteration in E. pose proof (pop_spec ret) as Hpop.
    destruct (pop ret) as [[variant rest]|]; [|discriminate]. subst ret.
    apply Forall_app in HP as [_ Hv]. inversion Hv as [|? ? Hvar _]; subst.
    destruct (Hexp _ Hvar) as (steps & Hmk & _). rewrite Hmk in E. discriminate.
  - exists sols. split; [reflexivity|].
    unfold iteration in E. pose proof (pop_spec ret) as Hpop.
    destruct (pop ret) as [[variant rest]|]; [discriminate|].
    destruct Hne; [contradiction | assumption].
Qed.

Lemma filter_sum_without {A} (wt : A -> nat) (f : A -> bool) (l : list A) (a : A) :
  In a l -> f a = false ->
  wt a + list_sum (map wt (filter f l)) <= list_sum (map wt l).
Proof.
  induction l as [|x t IH]; simpl; [tauto|].
  assert (Hle : list_sum (map wt (filter f t)) <= list_sum (map wt t)).
  { clear IH. induction t as [|y t IHt]; simpl; [lia|].
    destruct (f y); simpl; lia. }
  intros [->|Hin] Hf.
  - rewrite Hf. lia.
  - specialize (IH Hin Hf). destruct (f x); simpl; lia.
Qed.

Lemma filter_andb {A} (f g : A -> bool) (l : list A) :
  filter (fun x => f x && g x) l = filter g (filter f l).
Proof.
  induction l as [|x t IH]; simpl; [reflexivity|].
  destruct (f x); simpl; [destruct (g x)|]; now rewrite IH.
Qed.

Lemma unplaced_place dims_all parent d row column :
  unplaced dims_all (place parent d row column)
  = filter (fun x => not_in (id x) [id d]) (unplaced dims_all parent).
Proof.
  unfold unplaced. simpl. rewrite <- filter_andb. apply filter_ext.
  intros x. apply not_in_app.
Qed.

Lemma not_in_self i : not_in i [i] = false.
Proof. unfold not_in. simpl. now rewrite Nat.eqb_refl. Qed.

Section FullWidth.

Variables (dims_all : list dim) (r c : nat).
Hypothesis wide : Forall (fun d => cols d = c) dims_all.
Hypothesis tall : Forall (fun d => 0 < rows d + gap d) dims_all.
Hypothesis room : total_height dims_all <= r.
Hypothesis columns_pos : 0 < c.

Lemma laid_root d :
  In d dims_all -> laid dims_all r c (root (create_matrix r c) d).
Proof.
  intros Hd. exists (rows d + gap d).
  assert (Hsum : rows d + gap d
                 + total_height (unplaced dims_all (root (create_matrix r c) d))
                 <= total_height dims_all).
  { unfold total_height, unplaced. simpl ids.
    apply (filter_sum_without (fun d => rows d + gap d)); [exact Hd|].
    apply not_in_self. }
  split; [|lia]. simpl. rewrite Forall_forall in wide. rewrite (wide _ Hd).
  rewrite create_matrix_stacked. apply (@assign_stacked r c 0). lia.
Qed.

Lemma laid_place s filled d :
  page s = stacked r c filled ->
  filled + total_height (unplaced dims_all s) <= r ->
  In d (unplaced dims_all s) ->
  laid dims_all r c (place s d filled 0).
Proof.
  intros Hpage Hroom Hd. exists (filled + (rows d + gap d)).
  assert (Hsum : rows d + gap d
                 + total_height (unplaced dims_all (place s d filled 0))
                 <= total_height (unplaced dims_all s)).
  { rewrite unplaced_place. unfold total_height.
    apply (filter_sum_without (fun d => rows d + gap d)); [exact Hd|].
    apply not_in_self. }
  split; [|lia]. simpl. rewrite Hpage.
  apply unplaced_In in Hd as [Hd _].
  rewrite Forall_forall in wide. rewrite (wide _ Hd).
  apply assign_stacked. lia.
Qed.

Lemma laid_expands s :
  laid dims_all r c s ->
  exists steps,
    make_step s (unplaced dims_all s) = Ok steps /\
    Forall (laid dims_all r c) steps /\
    (unplaced dims_all s <> [] -> steps <> []).
Proof.
  intros (filled & Hpage & Hroom).
  destruct (unplaced dims_all s) as [|d0 t] eqn:Eu.
  - exists []. repeat split; [constructor | tauto].
  - assert (Hd0 : In d0 dims_all).
    { assert (Hu : In d0 (unplaced dims_all s)) by (rewrite Eu; now left).
      apply unplaced_In in Hu. tauto. }
    rewrite Forall_forall in tall. pose proof (tall _ Hd0) as Hpos.
    assert (Hlt : filled < r).
    { unfold total_height in Hroom. simpl in Hroom. lia. }
    assert (Hfit : forall d, In d (d0 :: t) -> filled + (rows d + gap d) <= r).
    { intros d Hd.
      pose proof (@filter_sum_without _ (fun d => rows d + gap d)
                    (fun _ => false) (d0 :: t) d Hd eq_refl) as Hd_le.
      cbv beta in Hd_le. unfold total_height in Hroom. lia. }
    assert (Hall : filter (fun d => validate_step filled 0 (rows d + gap d) (cols d)
                                                  (page s)) (d0 :: t) = d0 :: t).
    { apply forallb_filter_id. apply forallb_forall. intros d Hd.
      assert (Hin : In d dims_all).
      { rewrite <- Eu in Hd. apply unplaced_In in Hd. tauto. }
      rewrite Forall_forall in wide. rewrite (wide _ Hin), Hpage.
      apply validate_step_stacked. now apply Hfit. }
    exists (map (fun d => place s d filled 0) (d0 :: t)). split; [|split].
    + rewrite (@make_step_at s (d0 :: t) filled 0), Hall; [reflexivity|].
      rewrite Hpage. now apply find_empty_cel_stacked.
    + apply Forall_forall. intros s' Hs'. apply in_map_iff in Hs' as [d [<- Hd]].
      apply laid_place; auto; rewrite Eu; auto.
    + intros _. discriminate.
Qed.

Lemma full_width_search_succeeds :
  dims_all <> [] ->
  exists sols,
    find_loop dims_all (map (root (create_matrix r c)) dims_all) [] = Ok sols /\
    sols <> [].
Proof.
  intros Hne. apply find_loop_progress with (P := laid dims_all r c).
  - apply laid_expands.
  - apply Forall_forall. intros s Hs. apply in_map_iff in Hs as [d [<- Hd]].
    now apply laid_root.
  - left. destruct dims_all; [contradiction | discriminate].
Qed.

End FullWidth.

Lemma footprint_full_width c dims :
  Forall (fun d => cols d = c) dims ->
  list_sum (map footprint dims) = total_height dims * c.
Proof.
  unfold total_height. induction 1 as [|d t Hd _ IH]; simpl; [reflexivity|].
  rewrite IH. unfold footprint. rewrite Hd. lia.
Qed.

(** ** Acceptance by the filter and the solver *)




(* ===================================================================== *)
(** * Further properties of the module *)
(* ===================================================================== *)

(** ** [find_empty_cel]: the first empty cell *)

Lemma first_in_row_None v r k :
  first_in_row v r k = None -> forall j, nth_error r j <> Some v.
Proof.
  revert k. induction r as [|x t IH]; simpl; intros k H j.
  - now destruct j.
  - destruct (Z.eqb_spec x v); [discriminate|].
    destruct j as [|j]; simpl; [congruence | eapply IH; eassumption].
Qed.

Lemma first_in_row_least v r k j :
  first_in_row v r k = Some j ->
  forall j', j' < j - k -> nth_error r j' <> Some v.
Proof.
  revert k. induction r as [|x t IH]; simpl; intros k H j' Hj'; [discriminate|].
  destruct (Z.eqb_spec x v).
  - inversion H; subst. lia.
  - destruct j' as [|j']; simpl; [congruence|].
    eapply IH; [exact H|]. apply first_in_row_Some in H. lia.
Qed.

Lemma first_where_least v m k i j :
  first_where v m k = Some (i, j) ->
  forall i' j', i' < i - k \/ (i' = i - k /\ j' < j) -> cell m i' j' <> Some v.
Proof.
  revert k. induction m as [|r t IH]; simpl; intros k H i' j' Hlt; [discriminate|].
  destruct (first_in_row v r 0) as [j0|] eqn:E.
  - inversion H; subst. rewrite Nat.sub_diag in Hlt.
    destruct Hlt as [Hlt|[-> Hlt]]; [lia|]. unfold cell. simpl.
    eapply first_in_row_least; [exact E | lia].
  - pose proof (first_where_Some _ _ _ H) as [Hk _].
    destruct i' as [|i']; unfold cell; simpl.
    + eapply first_in_row_None; eassumption.
    + eapply IH; [exact H | lia].
Qed.

Lemma first_where_None_inv v m k :
  first_where v m k = None -> forall i j, cell m i j <> Some v.
Proof.
  revert k. induction m as [|r t IH]; simpl; intros k H i j.
  - unfold cell. now destruct i.
  - destruct (first_in_row v r 0) as [j0|] eqn:E; [discriminate|].
    destruct i as [|i]; unfold cell; simpl.
    + eapply first_in_row_None; eassumption.
    + eapply IH; exact H.
Qed.

(** X1: the cell [find_empty_cel] returns is empty, and no cell before it in
    the scan from the top-left corner, row after row, is empty. *)
Theorem find_empty_cel_is_first_empty (m : matrix) (i j : nat) :
  find_empty_cel m = Ok (i, j) ->
  cell m i j = Some 1%Z /\
  (forall i' j', i' < i \/ (i' = i /\ j' < j) -> cell m i' j' <> Some 1%Z).
Proof.
  unfold find_empty_cel. destruct (first_where 1 m 0) as [[i0 j0]|] eqn:E;
    [|discriminate].
  intros H. inversion H; subst. split.
  - apply first_where_Some in E as [_ E]. now rewrite Nat.sub_0_r in E.
  - intros i' j' Hlt. eapply first_where_least; [exact E|].
    rewrite Nat.sub_0_r. exact Hlt.
Qed.

(** On [[-1; 1]; [1; 1]] the first empty cell is (0, 1). *)
Lemma find_empty_cel_is_first_empty_witness :
  cell [[(-1)%Z; 1%Z]; [1%Z; 1%Z]] 0 1 = Some 1%Z /\
  (forall i' j', i' < 0 \/ (i' = 0 /\ j' < 1) ->
                 cell [[(-1)%Z; 1%Z]; [1%Z; 1%Z]] i' j' <> Some 1%Z).
Proof.
  apply (@find_empty_cel_is_first_empty [[(-1)%Z; 1%Z]; [1%Z; 1%Z]] 0 1).
  reflexivity.
Defined.

Lemma find_empty_cel_full m :
  (forall i j, cell m i j <> Some 1%Z) -> find_empty_cel m = Raise IndexError.
Proof. intros H. unfold find_empty_cel. now rewrite (@first_where_None 1 m 0 H). Qed.

Lemma find_empty_cel_exn m e : find_empty_cel m = Raise e -> e = IndexError.
Proof.
  unfold find_empty_cel. destruct (first_where 1 m 0); [discriminate|]. congruence.
Qed.

(** X2: [find_empty_cel] raises exactly when the array has no empty cell,
    and what it raises is IndexError. *)
Theorem find_empty_cel_raises_iff_full (m : matrix) :
  (find_empty_cel m = Raise IndexError <->
   forall i j, cell m i j <> Some 1%Z) /\
  (forall e, find_empty_cel m = Raise e -> e = IndexError).
Proof.
  split; [split|].
  - unfold find_empty_cel. destruct (first_where 1 m 0) as [p|] eqn:E; [discriminate|].
    intros _. now apply first_where_None_inv with (k := 0).
  - apply find_empty_cel_full.
  - intros e. apply find_empty_cel_exn.
Qed.

(** ** [validate_step] and the commit on a variant without cells *)

Lemma mapi_from_id {A} (f : nat -> A -> A) (l : list A) (k : nat) :
  (forall i x, f i x = x) -> mapi_from f k l = l.
Proof.
  intros H. revert k. induction l as [|x t IH]; intros k; simpl; [reflexivity|].
  now rewrite H, IH.
Qed.

Lemma within_empty lo i : within lo 0 i = false.
Proof.
  unfold within. rewrite Nat.add_0_r.
  destruct (Nat.leb_spec lo i), (Nat.ltb_spec i lo); simpl; try reflexivity; lia.
Qed.



(** ** [make_step]: the successors of a state *)

Lemma make_step_raise parent d rest e :
  find_empty_cel (page parent) = Raise e ->
  make_step parent (d :: rest) = Raise e.
Proof. intros H. cbn [make_step]. now rewrite H. Qed.

Lemma make_step_raises_IndexError parent dims e :
  make_step parent dims = Raise e -> e = IndexError.
Proof.
  induction dims as [|d t IH]; [discriminate|]. cbn [make_step].
  destruct (find_empty_cel (page parent)) as [[row column]|e0] eqn:E; unfold bind.
  - destruct (make_step parent t) as [ret|e1].
    + destruct (validate_step _ _ _ _ _); discriminate.
    + intros H. inversion H; subst. now apply IH.
  - intros H. inversion H; subst. eapply find_empty_cel_exn; eassumption.
Qed.

(** X4: what [make_step] returns.  Without variants to try it returns the
    empty list, whatever the page.  With at least one variant and a page
    without empty cell it raises IndexError.  Otherwise it returns, in the
    order of the variants, one successor for each variant that
    [validate_step] accepts at the first empty cell, committed there. *)
Theorem make_step_result (parent : state) (dims : list dim) :
  (dims = [] -> make_step parent dims = Ok []) /\
  (dims <> [] -> (forall i j, cell (page parent) i j <> Some 1%Z) ->
   make_step parent dims = Raise IndexError) /\
  (forall row column,
      find_empty_cel (page parent) = Ok (row, column) ->
      make_step parent dims =
      Ok (map (fun d => place parent d row column)
              (filter (fun d => validate_step row column (rows d + gap d) (cols d)
                                              (page parent)) dims))).
Proof.
  split; [|split].
  - intros ->. reflexivity.
  - intros Hne Hfull. destruct dims as [|d t]; [contradiction|].
    apply make_step_raise. now apply find_empty_cel_full.
  - intros row column. apply make_step_at.
Qed.

(** X5: every successor [make_step] returns commits one of the variants at
    the first empty cell of the parent's page; its page has as many empty
    cells fewer as the variant's footprint has cells, and when the footprint
    has a cell the parent's first empty cell is full in the successor. *)
Theorem successor_fills_first_empty_cell
  (parent : state) (dims : list dim) (steps : list state) (s : state) :
  make_step parent dims = Ok steps ->
  In s steps ->
  exists d row column,
    In d dims /\
    find_empty_cel (page parent) = Ok (row, column) /\
    s = place parent d row column /\
    count_eq 1 (page s) + footprint d = count_eq 1 (page parent) /\
    (0 < footprint d -> cell (page s) row column = Some (-1)%Z).
Proof.
  intros Hmk Hs. apply make_step_shape in Hmk as [_ Hall].
  rewrite Forall_forall in Hall.
  destruct (Hall s Hs) as (d & row & column & Hd & Hcel & Hfree & ->).
  exists d, row, column. apply validate_step_spec in Hfree.
  repeat split; auto.
  - simpl. unfold footprint. now apply count_assign_slice.
  - unfold footprint. intros Hpos. simpl. rewrite cell_assign_slice.
    assert (Hh : 0 < rows d + gap d) by nia.
    assert (Hw : 0 < cols d) by nia.
    rewrite (Hfree row column) by lia. simpl.
    assert (within row (rows d + gap d) row = true) as -> by (apply within_true; lia).
    assert (within column (cols d) column = true) as -> by (apply within_true; lia).
    reflexivity.
Qed.

(** The successor of the root of B in Scenario C. *)
Lemma successor_fills_first_empty_cell_witness :
  exists d row column,
    In d [article_A] /\
    find_empty_cel (page (root (create_matrix 1 2) article_B)) = Ok (row, column) /\
    place (root (create_matrix 1 2) article_B) article_A 0 1
      = place (root (create_matrix 1 2) article_B) d row column /\
    count_eq 1 (page (place (root (create_matrix 1 2) article_B) article_A 0 1))
      + footprint d
      = count_eq 1 (page (root (create_matrix 1 2) article_B)) /\
    (0 < footprint d ->
     cell (page (place (root (create_matrix 1 2) article_B) article_A 0 1)) row column
       = Some (-1)%Z).
Proof.
  apply (@successor_fills_first_empty_cell
           (root (create_matrix 1 2) article_B) [article_A]
           [place (root (create_matrix 1 2) article_B) article_A 0 1]).
  - reflexivity.
  - left. reflexivity.
Defined.

(** ** [find_solution]: exceptions *)

Lemma iteration_exn dims_all ret sols e :
  iteration dims_all ret sols = Some (Raise e) -> e = IndexError.
Proof.
  unfold iteration. destruct (pop ret) as [[variant rest]|]; [|discriminate].
  destruct (make_step variant (unplaced dims_all variant)) as [steps|e0] eqn:E;
    simpl; [discriminate|].
  intros H. inversion H; subst. eapply make_step_raises_IndexError; eassumption.
Qed.

Lemma find_loop_stuck dims_all ret sols :
  Exists (stuck dims_all) ret -> find_loop dims_all ret sols = Raise IndexError.
Proof.
  remember (pending_weight dims_all ret) as n eqn:Hn. revert ret Hn sols.
  induction n as [n IH] using lt_wf_ind. intros ret Hn sols Hex.
  rewrite find_loop_step.
  destruct (iteration dims_all ret sols) as [[[ret' sols']|e0]|] eqn:E.
  - pose proof (iteration_decreases _ _ _ E) as Hdec. rewrite <- Hn in Hdec.
    apply iteration_inv in E as (variant & rest & steps & -> & Hmk & -> & ->).
    apply Exists_app in Hex as [Hex|Hex].
    + apply (IH _ Hdec); [reflexivity|]. apply Exists_app. now right.
    + exfalso. inversion Hex as [? ? [Hun Hfull]|? ? Hnil]; subst; [|inversion Hnil].
      destruct (unplaced dims_all variant) as [|d t]; [contradiction|].
      rewrite (@make_step_raise variant d t IndexError) in Hmk; [discriminate|].
      now apply find_empty_cel_full.
  - f_equal. eapply iteration_exn; eassumption.
  - exfalso. unfold iteration in E. pose proof (pop_spec ret) as Hpop.
    destruct (pop ret) as [[variant rest]|]; [discriminate|]. subst ret.
    inversion Hex.
Qed.

Lemma cell_create_matrix_bounds r c i j x :
  cell (create_matrix r c) i j = Some x -> i < r /\ j < c.
Proof.
  unfold cell, create_matrix. intros H.
  destruct (nth_error (repeat (repeat 1%Z c) r) i) as [row|] eqn:E; [|discriminate].
  assert (Hi : i < r).
  { rewrite <- (repeat_length (repeat 1%Z c) r). apply nth_error_Some. congruence. }
  apply nth_error_In, repeat_spec in E. subst row. split; [exact Hi|].
  rewrite <- (repeat_length 1%Z c). apply nth_error_Some. congruence.
Qed.

(** X7: when one variant of the combination covers the whole page and the
    combination has an article with another id, [find_solution] does not
    return: the root of that variant has no empty cell left to anchor the
    other article on, and the search ends with IndexError. *)
Theorem find_solution_raises_when_a_root_fills_the_page
  (l : layout) (page_rows page_columns : nat) (d d' : dim) :
  In d (dimensions l) -> In d' (dimensions l) -> id d' <> id d ->
  page_rows <= rows d + gap d -> page_columns <= cols d ->
  find_solution l page_rows page_columns = Raise IndexError.
Proof.
  intros Hd Hd' Hid Hh Hw. unfold find_solution. apply find_loop_stuck.
  apply Exists_exists. exists (root (create_matrix page_rows page_columns) d).
  split; [now apply in_map|]. split.
  - assert (Hin : In d' (unplaced (dimensions l)
                           (root (create_matrix page_rows page_columns) d))).
    { apply unplaced_In. split; [exact Hd'|]. simpl. intros [H|[]]. congruence. }
    intros Hnil. rewrite Hnil in Hin. contradiction.
  - intros i j. simpl. rewrite cell_assign_slice.
    destruct (cell (create_matrix page_rows page_columns) i j) as [x|] eqn:E;
      simpl; [|discriminate].
    apply cell_create_matrix_bounds in E as [Hi Hj].
    assert (within 0 (rows d + gap d) i = true) as -> by (apply within_true; lia).
    assert (within 0 (cols d) j = true) as -> by (apply within_true; lia).
    discriminate.
Qed.

(** A variant of 2 x 2 cells and one of one cell on a page of 2 x 2. *)
Lemma find_solution_raises_when_a_root_fills_the_page_witness :
  find_solution (add_area [square_1; article_B]) 2 2 = Raise IndexError.
Proof.
  apply (@find_solution_raises_when_a_root_fills_the_page
           (add_area [square_1; article_B]) 2 2 square_1 article_B).
  - left. reflexivity.
  - right. left. reflexivity.
  - discriminate.
  - simpl. lia.
  - simpl. lia.
Defined.

(** ** [find_solution]: the records of a Solution *)

Lemma cell_grid_bounds r c m i j x :
  is_grid r c m -> cell m i j = Some x -> i < r /\ j < c.
Proof.
  intros [Hl Hr] H. unfold cell in H.
  destruct (nth_error m i) as [row|] eqn:E; [|discriminate].
  assert (Hi : i < r) by (rewrite <- Hl; apply nth_error_Some; congruence).
  split; [exact Hi|]. rewrite Forall_forall in Hr.
  rewrite <- (Hr row (nth_error_In _ _ E)). apply nth_error_Some. congruence.
Qed.

Lemma recorded_root dims_all r c d :
  In d dims_all -> recorded dims_all r c (root (create_matrix r c) d).
Proof.
  intros Hd. unfold recorded. simpl. split; [reflexivity|]. split; [|split].
  - eexists. exists []. repeat split. constructor.
  - constructor; [|constructor]. exists d. auto.
  - apply assign_slice_grid, create_matrix_grid.
Qed.

Lemma recorded_place dims_all r c parent d row column :
  recorded dims_all r c parent -> In d dims_all ->
  find_empty_cel (page parent) = Ok (row, column) ->
  recorded dims_all r c (place parent d row column).
Proof.
  intros (Hids & (c0 & later & Hc & Hr0 & Hc0 & Hlater) & Hall & Hg) Hd Hcel.
  unfold find_empty_cel in Hcel.
  destruct (first_where 1 (page parent) 0) as [[i j]|] eqn:E; [|discriminate].
  inversion Hcel; subst i j. apply first_where_Some in E as [_ E].
  rewrite Nat.sub_0_r in E.
  destruct (@cell_grid_bounds r c (page parent) row column 1%Z Hg E) as [Hi Hj].
  unfold recorded. simpl. split; [|split; [|split]].
  - rewrite map_app, Hids. reflexivity.
  - exists c0, (later ++ [{| coord_id := id d; coord_col := column;
                             coord_row := row; coord_cols := cols d |}]).
    rewrite Hc. repeat split; auto.
    apply Forall_app. split; [exact Hlater|]. constructor; [|constructor].
    simpl. auto.
  - apply Forall_app. split; [exact Hall|]. constructor; [|constructor].
    exists d. auto.
  - now apply assign_slice_grid.
Qed.

(** X8: in every Solution [find_solution] returns, the coordinate records
    carry the placed ids in the order of placement, the first record is at
    row 0, column 0 and every later record is anchored on a cell of the
    page, each record has the width of a variant of its article, and the
    page has the shape of the page asked for. *)
Theorem solution_records_follow_placements
  (l : layout) (page_rows page_columns : nat) (sols : list state) (s : state) :
  find_solution l page_rows page_columns = Ok sols ->
  In s sols ->
  map coord_id (coords s) = ids s /\
  (exists c0 later, coords s = c0 :: later /\
                    coord_row c0 = 0 /\ coord_col c0 = 0 /\
                    Forall (fun x => coord_row x < page_rows /\
                                     coord_col x < page_columns) later) /\
  Forall (fun x => exists d, In d (dimensions l) /\ coord_id x = id d /\
                             coord_cols x = cols d) (coords s) /\
  is_grid page_rows page_columns (page s).
Proof.
  intros Hrun Hs. unfold find_solution in Hrun.
  set (P := recorded (dimensions l) page_rows page_columns).
  apply (@find_loop_invariant (dimensions l)
           (fun ret sols => Forall P ret /\ Forall P sols))
    in Hrun as (ret' & [_ H] & _).
  - rewrite Forall_forall in H. exact (H s Hs).
  - intros ret sols0 ret' sols' [Hret Hsols] Hit.
    apply iteration_inv in Hit as (variant & rest & steps & -> & Hmk & -> & ->).
    apply Forall_app in Hret as [Hrest Hv]. inversion Hv as [|? ? Hvar _]; subst.
    apply make_step_shape in Hmk as [_ Hsteps]. split.
    + apply Forall_app. split; [|exact Hrest].
      eapply Forall_impl; [|exact Hsteps].
      intros s0 (d & row & column & Hd & Hcel & _ & ->).
      apply recorded_place; auto. apply unplaced_In in Hd. tauto.
    + destruct (is_empty (unplaced (dimensions l) variant)); [|exact Hsols].
      apply Forall_app. split; [exact Hsols|]. constructor; [exact Hvar|constructor].
  - split; [|constructor]. apply Forall_forall. intros s0 Hs0.
    apply in_map_iff in Hs0 as [d [<- Hd]]. now apply recorded_root.
Qed.

(** The first Solution of Scenario C. *)
Lemma solution_records_follow_placements_witness :
  map coord_id (coords solution_BA) = ids solution_BA /\
  (exists c0 later, coords solution_BA = c0 :: later /\
                    coord_row c0 = 0 /\ coord_col c0 = 0 /\
                    Forall (fun x => coord_row x < 1 /\ coord_col x < 2) later) /\
  Forall (fun x => exists d, In d (dimensions scenario_C) /\ coord_id x = id d /\
                             coord_cols x = cols d) (coords solution_BA) /\
  is_grid 1 2 (page solution_BA).
Proof.
  apply (@solution_records_follow_placements scenario_C 1 2
           [solution_BA; solution_AB] solution_BA).
  - vm_compute. reflexivity.
  - left. reflexivity.
Defined.

(** ** [find_solution]: the cells a Solution leaves empty *)

Lemma accounted_root dims_all r c d :
  In d dims_all -> rows d + gap d <= r -> cols d <= c ->
  accounted dims_all r c (root (create_matrix r c) d).
Proof.
  intros Hd Hh Hw. exists [d]. split; [reflexivity|]. split.
  - intros x [<-|[]]. exact Hd.
  - simpl. rewrite Nat.add_0_r. unfold footprint.
    rewrite count_assign_slice; [apply count_create_matrix|].
    intros i j Hi Hj. apply cell_create_matrix; lia.
Qed.

Lemma accounted_place dims_all r c parent d row column :
  accounted dims_all r c parent -> In d dims_all ->
  validate_step row column (rows d + gap d) (cols d) (page parent) = true ->
  accounted dims_all r c (place parent d row column).
Proof.
  intros (placed & Hids & Hincl & Hsum) Hd Hfree.
  apply validate_step_spec in Hfree. apply count_assign_slice in Hfree.
  exists (placed ++ [d]). split; [|split].
  - simpl. rewrite map_app, Hids. reflexivity.
  - apply incl_app; [exact Hincl|]. intros x [<-|[]]. exact Hd.
  - simpl. rewrite map_app, list_sum_app. simpl. unfold footprint at 2. lia.
Qed.

Lemma find_solution_accounted l page_rows page_columns sols :
  Forall (fun d => rows d + gap d <= page_rows /\ cols d <= page_columns)
         (dimensions l) ->
  find_solution l page_rows page_columns = Ok sols ->
  Forall (accounted (dimensions l) page_rows page_columns) sols.
Proof.
  intros Hfit Hrun. unfold find_solution in Hrun.
  apply (@find_loop_invariant (dimensions l)
           (fun ret sols =>
              Forall (accounted (dimensions l) page_rows page_columns) ret /\
              Forall (accounted (dimensions l) page_rows page_columns) sols))
    in Hrun as (ret' & [_ H] & _); [exact H| |].
  - intros ret sols0 ret' sols' [Hret Hsols] Hit.
    apply iteration_inv in Hit as (variant & rest & steps & -> & Hmk & -> & ->).
    apply Forall_app in Hret as [Hrest Hv]. inversion Hv as [|? ? Hvar _]; subst.
    apply make_step_shape in Hmk as [_ Hsteps]. split.
    + apply Forall_app. split; [|exact Hrest].
      eapply Forall_impl; [|exact Hsteps].
      intros s0 (d & row & column & Hd & _ & Hfree & ->).
      apply accounted_place; auto. apply unplaced_In in Hd. tauto.
    + destruct (is_empty (unplaced (dimensions l) variant)); [|exact Hsols].
      apply Forall_app. split; [exact Hsols|]. constructor; [exact Hvar|constructor].
  - split; [|constructor]. apply Forall_forall. intros s0 Hs0.
    apply in_map_iff in Hs0 as [d [<- Hd]].
    rewrite Forall_forall in Hfit. destruct (Hfit d Hd).
    now apply accounted_root.
Qed.

Lemma solution_empty_cells
  (l : layout) (page_rows page_columns : nat) (sols : list state) (s : state) :
  Forall (fun d => rows d + gap d <= page_rows /\ cols d <= page_columns)
         (dimensions l) ->
  NoDup (map id (dimensions l)) ->
  find_solution l page_rows page_columns = Ok sols ->
  In s sols ->
  count_eq 1 (page s) + list_sum (map footprint (dimensions l))
  = page_rows * page_columns.
Proof.
  intros Hfit Hnd Hrun Hs.
  pose proof (@find_solution_accounted l page_rows page_columns sols Hfit Hrun) as Hacc.
  pose proof (@find_solution_ids_ok l page_rows page_columns sols Hrun) as Hids.
  rewrite Forall_forall in Hacc, Hids.
  destruct (Hacc s Hs) as (placed & Hp & Hincl & Hsum).
  destruct (Hids s Hs) as [[Hnds Hsub] Hun].
  assert (Hperm : Permutation placed (dimensions l)).
  { apply NoDup_Permutation_bis; [| |exact Hincl].
    - apply (NoDup_map_inv id). now rewrite Hp.
    - rewrite <- (length_map id (dimensions l)), <- (length_map id placed), Hp.
      apply NoDup_incl_length; [exact Hnd|].
      intros x Hx. apply in_map_iff in Hx as [d [<- Hd]].
      destruct (in_dec Nat.eq_dec (id d) (ids s)) as [|Hn]; [assumption|].
      assert (In d (unplaced (dimensions l) s)) by (apply unplaced_In; tauto).
      rewrite Hun in *. contradiction. }
  rewrite <- (Permutation_list_sum (Permutation_map footprint Hperm)). exact Hsum.
Qed.

(** X9: when the variants of the combination fit within the page and have
    pairwise distinct ids, every Solution leaves exactly
    [rows * columns - total footprint] cells empty; so [find_solution]
    returns no Solution for a combination whose footprints add up to more
    than the page. *)
Theorem solution_empty_cells_are_page_minus_footprints
  (l : layout) (page_rows page_columns : nat) (sols : list state) (s : state) :
  Forall (fun d => rows d + gap d <= page_rows /\ cols d <= page_columns)
         (dimensions l) ->
  NoDup (map id (dimensions l)) ->
  find_solution l page_rows page_columns = Ok sols ->
  In s sols ->
  count_eq 1 (page s) + list_sum (map footprint (dimensions l))
  = page_rows * page_columns.
Proof. apply solution_empty_cells. Qed.

(** The first Solution of Scenario C: no cell is left empty. *)
Lemma solution_empty_cells_are_page_minus_footprints_witness :
  count_eq 1 (page solution_BA) + list_sum (map footprint (dimensions scenario_C))
  = 1 * 2.
Proof.
  apply (@solution_empty_cells_are_page_minus_footprints scenario_C 1 2
           [solution_BA; solution_AB] solution_BA).
  - repeat constructor.
  - simpl. repeat constructor; simpl; intuition discriminate.
  - vm_compute. reflexivity.
  - left. reflexivity.
Defined.

(** ** [fast_verify]: what acceptance means *)

(** X10: a combination [fast_verify] accepts needs no more cells than the
    page has, and each of its variants has a footprint of at least one cell
    that fits within the page. *)
Theorem accepted_combination_fits_the_page
  (l : layout) (page_rows page_columns : nat) :
  fast_verify l page_rows page_columns = Ok true ->
  list_sum (map footprint (dimensions l)) <= page_rows * page_columns /\
  Forall (fun d => 0 < rows d + gap d /\ 0 < cols d /\
                   rows d + gap d <= page_rows /\ cols d <= page_columns)
         (dimensions l).
Proof. apply fast_verify_area. Qed.

(** The two variants of 2 columns and 1 row on a page of 2 rows and 3 columns. *)
Lemma accepted_combination_fits_the_page_witness :
  list_sum (map footprint (dimensions two_narrow)) <= 2 * 3 /\
  Forall (fun d => 0 < rows d + gap d /\ 0 < cols d /\
                   rows d + gap d <= 2 /\ cols d <= 3)
         (dimensions two_narrow).
Proof.
  apply (@accepted_combination_fits_the_page two_narrow 2 3).
  vm_compute. reflexivity.
Defined.

Lemma Forall2_combine {A B} (P : A -> B -> Prop) l1 l2 :
  Forall2 P l1 l2 -> forall p, In p (combine l1 l2) -> P (fst p) (snd p).
Proof.
  induction 1 as [|a b l1 l2 Hab _ IH]; simpl; [tauto|].
  intros p [<-|Hp]; [exact Hab | now apply IH].
Qed.

Lemma cell_assign_still_empty row h col w m i j :
  cell (assign_slice row h col w (-1) m) i j = Some 1%Z ->
  cell m i j = Some 1%Z /\ within row h i && within col w j = false.
Proof.
  rewrite cell_assign_slice. destruct (cell m i j) as [y|]; simpl; [|discriminate].
  destruct (within row h i && within col w j); [discriminate|].
  intros H. inversion H. auto.
Qed.

Lemma fast_verify_loop_packing r c order :
  forall page,
    is_grid r c page -> cells_le1 page ->
    fast_verify_loop order page = Ok true ->
    exists cs,
      Forall2 (anchored page) cs order /\
      ForallOrdPairs disjoint (combine cs order).
Proof.
  induction order as [|d rest IH]; intros page Hg Hle H.
  - exists []. split; constructor.
  - apply (@fast_verify_loop_cons r c page d rest true Hg Hle) in H
      as [H | (row & col & Hh & Hw & Hr & Hc & Hfree & H)]; [discriminate|].
    apply IH in H as (cs & Hanch & Hdis);
      [| now apply assign_slice_grid | now apply cells_le1_assign].
    set (x := {| coord_id := id d; coord_col := col;
                 coord_row := row; coord_cols := cols d |}).
    exists (x :: cs). split.
    + constructor; [repeat split; auto|].
      eapply Forall2_impl; [|exact Hanch].
      intros y d' (Hy1 & Hy2 & Hy3). repeat split; auto.
      intros i j Hi Hj. now apply (cell_assign_still_empty _ _ _ _ _ _ _ (Hy3 i j Hi Hj)).
    + simpl. constructor; [|exact Hdis].
      apply Forall_forall. intros p Hp i j [[Hx1 Hx2] [Hp1 Hp2]].
      pose proof (Forall2_combine Hanch p Hp) as (_ & _ & Hp3).
      destruct (cell_assign_still_empty _ _ _ _ _ _ _ (Hp3 i j Hp1 Hp2)) as [_ Hout].
      simpl in Hx1, Hx2.
      assert (within row (rows d + gap d) i = true) as Hwi by (apply within_true; lia).
      assert (within col (cols d) j = true) as Hwj by (apply within_true; lia).
      rewrite Hwi, Hwj in Hout. discriminate.
Qed.

Lemma map_snd_combine {A B} (l1 : list A) (l2 : list B) :
  length l1 = length l2 -> map snd (combine l1 l2) = l2.
Proof.
  revert l2. induction l1 as [|a l1 IH]; intros [|b l2] H; simpl in *;
    try discriminate; [reflexivity|].
  f_equal. apply IH. lia.
Qed.

(** X11: when [fast_verify] accepts a combination, its variants can be laid
    on the page without overlap: there is one anchor for each variant such
    that the rectangles of (rows + gap) x cols cells lie within the page
    and are pairwise disjoint. *)
Theorem accepted_combination_has_a_packing
  (l : layout) (page_rows page_columns : nat) :
  fast_verify l page_rows page_columns = Ok true ->
  exists ps : list (coord * dim),
    Permutation (map snd ps) (dimensions l) /\
    Forall (fun p =>
              coord_row (fst p) + (rows (snd p) + gap (snd p)) <= page_rows /\
              coord_col (fst p) + cols (snd p) <= page_columns) ps /\
    ForallOrdPairs disjoint ps.
Proof.
  unfold fast_verify. intros H.
  pose proof (@fast_verify_loop_area page_rows page_columns _ _
                (create_matrix_grid page_rows page_columns)
                (cells_le1_create page_rows page_columns) H) as [_ Hpos].
  apply (@fast_verify_loop_packing page_rows page_columns) in H
    as (cs & Hanch & Hdis);
    [| apply create_matrix_grid | apply cells_le1_create].
  exists (combine cs (rev (sorted area (dimensions l)))). split; [|split].
  - rewrite map_snd_combine by (eapply Forall2_length; eassumption).
    apply examination_order_perm.
  - apply Forall_forall. intros p Hp.
    pose proof (Forall2_combine Hanch p Hp) as (_ & _ & Hfree).
    assert (Hin : In (snd p) (rev (sorted area (dimensions l)))).
    { destruct p as [x d]. apply in_combine_r in Hp. exact Hp. }
    rewrite Forall_forall in Hpos. destruct (Hpos _ Hin) as (Hh & Hw & _ & _).
    pose proof (Hfree (coord_row (fst p) + (rows (snd p) + gap (snd p)) - 1)
                      (coord_col (fst p) + cols (snd p) - 1)) as Hc.
    assert (Hcell : cell (create_matrix page_rows page_columns)
                      (coord_row (fst p) + (rows (snd p) + gap (snd p)) - 1)
                      (coord_col (fst p) + cols (snd p) - 1) = Some 1%Z)
      by (apply Hc; lia).
    apply cell_create_matrix_bounds in Hcell. lia.
  - exact Hdis.
Qed.

(** The two variants of 2 columns and 1 row on a page of 2 rows and 3 columns. *)
Lemma accepted_combination_has_a_packing_witness :
  exists ps : list (coord * dim),
    Permutation (map snd ps) (dimensions two_narrow) /\
    Forall (fun p =>
              coord_row (fst p) + (rows (snd p) + gap (snd p)) <= 2 /\
              coord_col (fst p) + cols (snd p) <= 3) ps /\
    ForallOrdPairs disjoint ps.
Proof.
  apply (@accepted_combination_has_a_packing two_narrow 2 3).
  vm_compute. reflexivity.
Defined.

(** ** [fast_verify]: edge cases and exceptions *)

Lemma zsum_ones (l : list Z) :
  Forall (fun x => x = 1%Z) l -> zsum l = Z.of_nat (length l).
Proof. induction 1 as [|x t Hx _ IH]; simpl zsum; simpl length; [reflexivity|lia]. Qed.

Lemma window_sum_ones r c f :
  (forall a b, a < r -> b < c -> f a b = 1%Z) ->
  window_sum r c f = Z.of_nat (r * c).
Proof.
  intros H. unfold window_sum. rewrite <- (window_length r c f).
  apply zsum_ones. apply Forall_forall. intros x Hx.
  apply window_In in Hx as (a & b & Ha & Hb & ->). auto.
Qed.

Lemma get_create_matrix_in r c a b :
  a < r -> b < c -> get (create_matrix r c) a b = 1%Z.
Proof. intros Ha Hb. rewrite get_cell, cell_create_matrix by assumption. reflexivity. Qed.

(** X13: the verdict of [fast_verify] on a combination of one variant, by
    the size of its footprint.  It raises ValueError when the page or the
    footprint has no cell; it returns True when the footprint fits within
    the page; it returns False when the footprint is at least as large as
    the page along both axes and larger along one; it raises ValueError
    when the footprint is larger along one axis and smaller along the
    other. *)
Theorem fast_verify_on_one_variant
  (l : layout) (d : dim) (page_rows page_columns : nat) :
  dimensions l = [d] ->
  fast_verify l page_rows page_columns =
  if (page_rows =? 0) || (page_columns =? 0)
     || (rows d + gap d =? 0) || (cols d =? 0) then Raise ValueError
  else if (rows d + gap d <=? page_rows) && (cols d <=? page_columns) then Ok true
  else if (page_rows <=? rows d + gap d) && (page_columns <=? cols d) then Ok false
  else Raise ValueError.
Proof.
  intros Hl. unfold fast_verify. rewrite Hl. simpl sorted. simpl rev.
  set (h := rows d + gap d). set (w := cols d).
  pose proof (create_matrix_grid page_rows page_columns) as Hg.
  pose proof (cells_le1_create page_rows page_columns) as Hle.
  destruct (fast_verify_loop [d] (create_matrix page_rows page_columns))
    as [b|e] eqn:Erun.
  - (* a verdict: the correlation was computed *)
    pose proof Erun as Hrun. cbn [fast_verify_loop] in Erun. cbv zeta in Erun.
    fold h w in Erun. rewrite (correlate_valid_sizes h w Hg) in Erun.
    destruct ((page_rows =? 0) || (page_columns =? 0) || (h =? 0) || (w =? 0)) eqn:Ez;
      [discriminate|].
    apply orb_false_iff in Ez as [Ez Ew0]. apply orb_false_iff in Ez as [Ez Eh0].
    apply orb_false_iff in Ez as [Er0 Ec0].
    apply Nat.eqb_neq in Er0, Ec0, Eh0, Ew0.
    apply (@fast_verify_loop_cons page_rows page_columns _ d [] b Hg Hle) in Hrun.
    destruct ((h <=? page_rows) && (w <=? page_columns)) eqn:Efit.
    + apply andb_prop in Efit as [Eh Ew]. apply Nat.leb_le in Eh, Ew.
      unfold bind in Erun. rewrite max_peak_create_matrix in Erun by lia.
      destruct (first_where _ _ 0) as [[row col]|] eqn:Ep.
      * simpl in Erun. exact (eq_sym Erun).
      * exfalso. apply first_where_None_inv with (i := 0) (j := 0) in Ep.
        apply Ep. rewrite cell_table.
        assert ((0 <? page_rows - h + 1) && (0 <? page_columns - w + 1) = true) as ->.
        { apply andb_true_intro. split; apply Nat.ltb_lt; lia. }
        f_equal. apply window_sum_ones. intros a0 b0 Ha Hb. simpl.
        rewrite !get_create_matrix_in by lia. reflexivity.
    + destruct Hrun as [->|(row & col & _ & _ & Hr & Hc & _)].
      * destruct ((page_rows <=? h) && (page_columns <=? w)); [reflexivity|discriminate].
      * exfalso. apply andb_false_iff in Efit. rewrite !Nat.leb_gt in Efit.
        fold h w in Hr, Hc. lia.
  - (* an exception: the correlation raised *)
    pose proof (fast_verify_loop_exn _ _ Erun) as ->.
    cbn [fast_verify_loop] in Erun. cbv zeta in Erun.
    fold h w in Erun. rewrite (correlate_valid_sizes h w Hg) in Erun.
    destruct ((page_rows =? 0) || (page_columns =? 0) || (h =? 0) || (w =? 0)) eqn:Ez;
      [reflexivity|].
    apply orb_false_iff in Ez as [Ez Ew0]. apply orb_false_iff in Ez as [Ez Eh0].
    apply Nat.eqb_neq in Eh0.
    destruct ((h <=? page_rows) && (w <=? page_columns)).
    + unfold bind in Erun. destruct (first_where _ _ 0) as [[row col]|]; discriminate.
    + destruct ((page_rows <=? h) && (page_columns <=? w)); [|reflexivity].
      unfold bind in Erun. destruct (first_where _ _ 0) as [[row col]|]; discriminate.
Qed.

(** A variant of 3 columns and 1 row on a page of 2 rows and 3 columns. *)
Lemma fast_verify_on_one_variant_witness :
  fast_verify (add_area [wide_1]) 2 3 = Ok true.
Proof.
  apply (@fast_verify_on_one_variant (add_area [wide_1]) wide_1 2 3).
  reflexivity.
Defined.

(** ** [generate_layouts] as written *)

Lemma product_nil_iff {A} (pools : list (list A)) :
  product pools = [] <-> Exists (fun pool => pool = []) pools.
Proof.
  induction pools as [|pool rest IH]; simpl.
  - split; [discriminate | intros H; inversion H].
  - split.
    + intros H. destruct pool as [|x t]; [now left|]. right. apply IH.
      simpl in H. apply app_eq_nil in H as [H _].
      destruct (product rest); [reflexivity | discriminate].
    + intros H. inversion H as [? ? Hp|? ? Hr]; subst; [reflexivity|].
      apply IH in Hr. rewrite Hr. clear. induction pool; simpl; auto.
Qed.

(** X15: [generate_layouts] returns the empty sequence when some article of
    the catalog has no variant, and raises TypeError on every other
    catalog, the one of no article included: it never yields a
    combination. *)
Theorem generate_layouts_yields_no_combination (articles : list (list dim)) :
  (Exists (fun pool => pool = []) articles -> generate_layouts articles = Ok []) /\
  (Forall (fun pool => pool <> []) articles ->
   generate_layouts articles = Raise TypeError).
Proof.
  unfold generate_layouts. split.
  - intros H. apply product_nil_iff in H. rewrite H. reflexivity.
  - intros H. destruct (product articles) as [|x t] eqn:E; [|reflexivity].
    exfalso. apply product_nil_iff in E. apply Exists_exists in E as [pool [Hin Hp]].
    rewrite Forall_forall in H. exact (H pool Hin Hp).
Qed.

(** ** The area test of [validate_area] against the filter and the solver *)

Lemma footprint_is_area dims :
  Forall (fun d => area d = cols d * (rows d + gap d)) dims ->
  list_sum (map area dims) = list_sum (map footprint dims).
Proof.
  induction 1 as [|d t Hd _ IH]; simpl; [reflexivity|].
  rewrite IH, Hd. unfold footprint. lia.
Qed.

Lemma validate_area_true dims columns rows :
  list_sum (map area dims) <= columns * rows ->
  validate_area dims columns rows = true.
Proof.
  intros H. unfold validate_area. simpl.
  destruct (Nat.leb_spec (list_sum (map area dims)) (columns * rows));
    [reflexivity | lia].
Qed.

(** X19: when the area field of every variant is its width times its height
    with the gap, a combination [fast_verify] accepts passes the test of
    [validate_area] for the same page, and the area [add_area] stores for it
    is at most the page area. *)
Theorem accepted_combination_passes_validate_area
  (l : layout) (page_rows page_columns : nat) :
  Forall (fun d => area d = cols d * (rows d + gap d)) (dimensions l) ->
  fast_verify l page_rows page_columns = Ok true ->
  validate_area (dimensions l) page_columns page_rows = true /\
  layout_area (add_area (dimensions l)) <= page_rows * page_columns.
Proof.
  intros Harea Hacc. apply fast_verify_area in Hacc as [Hsum _].
  rewrite <- (footprint_is_area Harea) in Hsum. split.
  - apply validate_area_true. lia.
  - exact Hsum.
Qed.

(** The two variants of 2 columns and 1 row on a page of 2 rows and 3 columns. *)
Lemma accepted_combination_passes_validate_area_witness :
  validate_area (dimensions two_narrow) 3 2 = true /\
  layout_area (add_area (dimensions two_narrow)) <= 2 * 3.
Proof.
  apply (@accepted_combination_passes_validate_area two_narrow 2 3).
  - repeat constructor.
  - vm_compute. reflexivity.
Defined.

(** X20: when the variants fit within the page, have pairwise distinct ids
    and area fields equal to width times height with the gap, a combination
    for which [find_solution] returns a Solution passes the test of
    [validate_area]: the area test drops no combination that has a
    Solution. *)
Theorem solved_combination_passes_validate_area
  (l : layout) (page_rows page_columns : nat) (sols : list state) (s : state) :
  Forall (fun d => rows d + gap d <= page_rows /\ cols d <= page_columns)
         (dimensions l) ->
  NoDup (map id (dimensions l)) ->
  Forall (fun d => area d = cols d * (rows d + gap d)) (dimensions l) ->
  find_solution l page_rows page_columns = Ok sols ->
  In s sols ->
  validate_area (dimensions l) page_columns page_rows = true.
Proof.
  intros Hfit Hnd Harea Hrun Hs.
  pose proof (@solution_empty_cells l page_rows page_columns sols s
                Hfit Hnd Hrun Hs) as Hsum.
  apply validate_area_true. rewrite (footprint_is_area Harea). lia.
Qed.

(** Scenario C. *)
Lemma solved_combination_passes_validate_area_witness :
  validate_area (dimensions scenario_C) 2 1 = true.
Proof.
  apply (@solved_combination_passes_validate_area scenario_C 1 2
           [solution_BA; solution_AB] solution_BA).
  - repeat constructor.
  - simpl. repeat constructor; simpl; intuition discriminate.
  - repeat constructor.
  - vm_compute. reflexivity.
  - left. reflexivity.
Defined.
